(** * The check list store of [custom_components/check_list/__init__.py]

    A shallow embedding of the class [CheckData]: the items are Python
    dictionaries with string keys, the store is the list [self.items], and
    every method is a function from the list before the call to the outcome
    of the call (a value or the exception raised) together with the list
    after it.  The services, the views and the websocket commands of the
    same file are embedded in the same way, as calls on the list.

    The list holds references to dictionaries.  [async_add] puts a new
    dictionary into it and [async_reorder] moves every dictionary at most
    once, so no two positions of the list hold the same dictionary, and a
    list of dictionary values stands for the list of references; an update
    in place is the replacement of the value at the position found.

    Not modelled: the executor job that saves the list to
    [.check_list.json] and the events fired on the bus.  Both read the list
    and never change it. *)

From stdpp Require Import gmap strings list fin_maps.
From Stdlib Require Import ZArith.

Local Open Scope string_scope.
Local Open Scope Z_scope.
Local Open Scope list_scope.

(** ** Values and dictionaries *)

(** The JSON scalars an item can hold.  Floats, lists and nested objects
    never appear in an item made by the store and are left out. *)
Inductive value : Type :=
  | VNone
  | VBool (b : bool)
  | VInt (z : Z)
  | VStr (s : string).

#[global] Instance value_eq_dec : EqDecision value.
Proof. solve_decision. Defined.

(** Python's [==] on these values: [bool] is a subclass of [int], so
    [True == 1] and [False == 0]; a string or [None] equals only itself. *)
Definition py_eq (a b : value) : bool :=
  match a, b with
  | VNone, VNone => true
  | VBool x, VBool y => Bool.eqb x y
  | VBool x, VInt z | VInt z, VBool x => Z.eqb (Z.b2z x) z
  | VInt x, VInt y => Z.eqb x y
  | VStr s, VStr t => bool_decide (s = t)
  | _, _ => false
  end.

(** Truth value of [v] in a condition ([not v], [if v]). *)
Definition truthy (v : value) : bool :=
  match v with
  | VNone => false
  | VBool b => b
  | VInt z => negb (Z.eqb z 0)
  | VStr s => negb (bool_decide (s = ""))
  end.

(** [v is False]: identity with the singleton [False]. *)
Definition is_False (v : value) : bool :=
  match v with
  | VBool false => true
  | _ => false
  end.

(** An item, and the [info] argument of the update methods: a [dict] with
    string keys. *)
Abbreviation item := (gmap string value).

(** The two exceptions the store raises: [KeyError] (reported as "item not
    found") and [vol.Invalid] (reported as invalid format). *)
Inductive exn : Type :=
  | KeyError
  | Invalid.

Inductive result (A : Type) : Type :=
  | Ok (a : A)
  | Raise (e : exn).
Arguments Ok {A} a.
Arguments Raise {A} e.

Definition bind {A B : Type} (r : result A) (k : A → result B) : result B :=
  match r with
  | Ok a => k a
  | Raise e => Raise e
  end.

Notation "'try' x := r 'in' k" := (bind r (λ x, k))
  (at level 10, x name, r at level 100, k at level 200, only parsing).

(** [d[k]] *)
Definition getitem (d : item) (k : string) : result value :=
  match d !! k with
  | Some v => Ok v
  | None => Raise KeyError
  end.

(** [d.update(info)]: the keys of [info] are written over [d]. *)
Definition dict_update (info d : item) : item := info ∪ d.

(** ** [ITEM_UPDATE_SCHEMA]

    [vol.Schema({"complete": bool, "name": str, "type": str})]: a dictionary
    passes when each of its keys is one of the three (none is required,
    any other key is refused) and each value is an instance of the type
    given for its key.  The validated dictionary is returned as it came. *)
Definition schema_field (k : string) (v : value) : bool :=
  if bool_decide (k = "complete") then
    match v with VBool _ => true | _ => false end
  else if bool_decide (k = "name") then
    match v with VStr _ => true | _ => false end
  else if bool_decide (k = "type") then
    match v with VStr _ => true | _ => false end
  else false.

Definition ITEM_UPDATE_SCHEMA (info : item) : result item :=
  if forallb (λ kv, schema_field kv.1 kv.2) (map_to_list info)
  then Ok info
  else Raise Invalid.

(** ** The dictionary [all_items_mapping] of [async_reorder]

    Its keys are the values found under ["id"], its iteration order is the
    order in which the keys were first inserted, and two keys that are [==]
    are one key: an association list. *)
Abbreviation mapping := (list (value * item)).

Fixpoint dict_get (k : value) (m : mapping) : option item :=
  match m with
  | [] => None
  | (k', v) :: m' => if py_eq k' k then Some v else dict_get k m'
  end.

(** [m[k] = v]: an existing key keeps its place and gets the new value, a
    new key goes to the end. *)
Fixpoint dict_set (k : value) (v : item) (m : mapping) : mapping :=
  match m with
  | [] => [(k, v)]
  | (k', v') :: m' =>
      if py_eq k' k then (k', v) :: m' else (k', v') :: dict_set k v m'
  end.

(** [del m[k]] *)
Fixpoint dict_del (k : value) (m : mapping) : mapping :=
  match m with
  | [] => []
  | (k', v) :: m' =>
      if py_eq k' k then dict_del k m' else (k', v) :: dict_del k m'
  end.

(** ** The methods of [CheckData]

    A call takes the list [self.items] and gives the value returned or the
    exception raised, with the list after the call. *)
Abbreviation call A := (list item → result A * list item).

(** [async_add]; [uuid4_hex] is the identifier drawn by [uuid.uuid4().hex]. *)
Definition async_add (uuid4_hex : string) (name type : value) : call item :=
  λ items,
    let itm : item :=
      {[ "name" := name;
         "type" := type;
         "id" := VStr uuid4_hex;
         "complete" := VBool false;
         "index" := VInt (Z.of_nat (length items)) ]} in
    (Ok itm, items ++ [itm]).

(** [next((itm for itm in self.items if itm["id"] == item_id), None)]: the
    position of the first item whose id is [item_id], with the item. *)
Fixpoint next_with_id (item_id : string) (items : list item)
  : result (option (nat * item)) :=
  match items with
  | [] => Ok None
  | itm :: rest =>
      try v := getitem itm "id" in
      if py_eq v (VStr item_id) then Ok (Some (0%nat, itm))
      else
        try found := next_with_id item_id rest in
        Ok (prod_map S id <$> found)
  end.

(** [async_update]: the item found is updated in place. *)
Definition async_update (item_id : string) (info : item) : call item :=
  λ items,
    match next_with_id item_id items with
    | Raise e => (Raise e, items)
    | Ok None => (Raise KeyError, items)
    | Ok (Some (i, itm)) =>
        match ITEM_UPDATE_SCHEMA info with
        | Raise e => (Raise e, items)
        | Ok info =>
            let itm := dict_update info itm in
            (Ok itm, <[i := itm]> items)
        end
    end.

(** [[itm for itm in self.items if not itm["complete"]]] *)
Fixpoint not_completed (items : list item) : result (list item) :=
  match items with
  | [] => Ok []
  | itm :: rest =>
      try c := getitem itm "complete" in
      try kept := not_completed rest in
      Ok (if truthy c then kept else itm :: kept)
  end.

(** [async_clear_completed] *)
Definition async_clear_completed : call unit :=
  λ items,
    match not_completed items with
    | Raise e => (Raise e, items)
    | Ok kept => (Ok tt, kept)
    end.

(** [async_list_items] *)
Definition async_list_items : call (list item) :=
  λ items, (Ok items, items).

(** [async_update_list]: [info] is written over every item as it is. *)
Definition async_update_list (info : item) : call (list item) :=
  λ items,
    let items := dict_update info <$> items in
    (Ok items, items).

(** [{item["id"]: item for item in self.items}] *)
Fixpoint items_mapping (items : list item) (m : mapping) : result mapping :=
  match items with
  | [] => Ok m
  | itm :: rest =>
      try k := getitem itm "id" in
      items_mapping rest (dict_set k itm m)
  end.

(** The first loop of [async_reorder], over [item_ids]. *)
Fixpoint append_by_order (item_ids : list string) (m : mapping)
    (new_items : list item) : result (list item * mapping) :=
  match item_ids with
  | [] => Ok (new_items, m)
  | item_id :: rest =>
      match dict_get (VStr item_id) m with
      | None => Raise KeyError
      | Some itm =>
          append_by_order rest (dict_del (VStr item_id) m) (new_items ++ [itm])
      end
  end.

(** The second loop of [async_reorder], over what is left in the mapping. *)
Fixpoint append_rest (m : mapping) (new_items : list item)
  : result (list item) :=
  match m with
  | [] => Ok new_items
  | (_, itm) :: m' =>
      try c := getitem itm "complete" in
      if is_False c then Raise Invalid
      else append_rest m' (new_items ++ [itm])
  end.

Definition reordered (item_ids : list string) (items : list item)
  : result (list item) :=
  try all_items_mapping := items_mapping items [] in
  try placed := append_by_order item_ids all_items_mapping [] in
  append_rest placed.2 placed.1.

(** [async_reorder]: [self.items] is assigned once both loops are through. *)
Definition async_reorder (item_ids : list string) : call unit :=
  λ items,
    match reordered item_ids items with
    | Raise e => (Raise e, items)
    | Ok new_items => (Ok tt, new_items)
    end.

(** ** Vocabulary of the statements *)

(** The value an item holds under ["id"]. *)
Definition id_of (itm : item) : option value := itm !! "id".

(** The ids of the list are pairwise distinct. *)
Definition distinct_ids (items : list item) : Prop :=
  NoDup (id_of <$> items).

(** An item as the store makes it: its id is a string and its completion
    flag a boolean. *)
Definition is_item (itm : item) : bool :=
  match itm !! "id", itm !! "complete" with
  | Some (VStr _), Some (VBool _) => true
  | _, _ => false
  end.

(** The id of an item, as a string. *)
Definition str_id (itm : item) : string :=
  match itm !! "id" with
  | Some (VStr s) => s
  | _ => ""
  end.

Definition ids (items : list item) : list string := str_id <$> items.

(** [info] is a dictionary [ITEM_UPDATE_SCHEMA] accepts. *)
Definition valid_fields (info : item) : Prop :=
  map_Forall (λ k v, schema_field k v) info.

(** The dictionary [async_add] makes. *)
Local Abbreviation async_add_item uuid4_hex name type items :=
  ({[ "name" := name;
      "type" := type;
      "id" := VStr uuid4_hex;
      "complete" := VBool false;
      "index" := VInt (Z.of_nat (length items)) ]} : item) (only parsing).

(** The entry of an item in [all_items_mapping]. *)
Definition entry (itm : item) : value * item := (VStr (str_id itm), itm).

(** [UpdateAll] in the words of the specification: [Update] applied to the
    items, named by their ids, one after the other; the first failure
    stops the run. *)
Fixpoint update_each (item_ids : list string) (info : item) : call unit :=
  λ items,
    match item_ids with
    | [] => (Ok tt, items)
    | item_id :: rest =>
        match async_update item_id info items with
        | (Ok _, items) => update_each rest info items
        | (Raise e, items) => (Raise e, items)
        end
    end.

(** The operations of the store, and the list a call leaves behind. *)
Inductive operation : Type :=
  | Add (uuid4_hex : string) (name type : value)
  | Update (item_id : string) (info : item)
  | ClearCompleted
  | ListItems
  | UpdateAll (info : item)
  | Reorder (item_ids : list string).

Definition run (op : operation) (items : list item) : list item :=
  match op with
  | Add uuid4_hex name type => (async_add uuid4_hex name type items).2
  | Update item_id info => (async_update item_id info items).2
  | ClearCompleted => (async_clear_completed items).2
  | ListItems => (async_list_items items).2
  | UpdateAll info => (async_update_list info items).2
  | Reorder item_ids => (async_reorder item_ids items).2
  end.

Fixpoint run_all (ops : list operation) (items : list item) : list item :=
  match ops with
  | [] => items
  | op :: ops => run_all ops (run op items)
  end.

(** The calls that leave the ids alone: an [Add] whose drawn id is the id
    of no item of the list, and an [UpdateAll] whose [info] has no ["id"]
    key.  The other calls are not restricted. *)
Definition respects_ids (op : operation) (items : list item) : Prop :=
  match op with
  | Add uuid4_hex _ _ => Some (VStr uuid4_hex) ∉ id_of <$> items
  | UpdateAll info => info !! "id" = None
  | _ => True
  end.

Fixpoint respects_ids_all (ops : list operation) (items : list item) : Prop :=
  match ops with
  | [] => True
  | op :: ops => respects_ids op items ∧ respects_ids_all ops (run op items)
  end.

(** [Add] calls, one for each id drawn with the name and the type given. *)
Definition adds (drawn : list (string * (value * value))) : list operation :=
  (λ d, Add d.1 d.2.1 d.2.2) <$> drawn.

(** ** The services, the views and the websocket commands

    The callers of [CheckData] in the same file.  A handler takes the
    dictionary it is called with ([call.data], the JSON body, the websocket
    message) and is a call on the list, as the methods are; what a view
    returns or a command sends over the connection is the value of the
    call. *)

Definition ATTR_NAME : string := "name".
Definition ATTR_TYPE : string := "type".
Definition ATTR_COMPLETE : string := "complete".
Definition WS_TYPE_SHOPPING_LIST_ADD_ITEM : string := "check_list/items/add".
Definition WS_TYPE_SHOPPING_LIST_UPDATE_ITEM : string := "check_list/items/update".

(** [d.get(k)] *)
Definition dict_get_or_None (d : item) (k : string) : value :=
  default VNone (d !! k).

(** [async_update] for an id that is any value, as the name-keyed services
    and the websocket command pass what they found under ["id"] and
    ["item_id"]. *)
Fixpoint next_with_id_value (item_id : value) (items : list item)
  : result (option (nat * item)) :=
  match items with
  | [] => Ok None
  | itm :: rest =>
      try v := getitem itm "id" in
      if py_eq v item_id then Ok (Some (0%nat, itm))
      else
        try found := next_with_id_value item_id rest in
        Ok (prod_map S id <$> found)
  end.

Definition async_update_value (item_id : value) (info : item) : call item :=
  λ items,
    match next_with_id_value item_id items with
    | Raise e => (Raise e, items)
    | Ok None => (Raise KeyError, items)
    | Ok (Some (i, itm)) =>
        match ITEM_UPDATE_SCHEMA info with
        | Raise e => (Raise e, items)
        | Ok info =>
            let itm := dict_update info itm in
            (Ok itm, <[i := itm]> items)
        end
    end.

(** [add_item_service] *)
Definition add_item_service (uuid4_hex : string) (data : item) : call unit :=
  λ items,
    let name := dict_get_or_None data ATTR_NAME in
    let type := dict_get_or_None data ATTR_TYPE in
    if bool_decide (name = VNone) then (Ok tt, items)
    else (Ok tt, (async_add uuid4_hex name type items).2).

(** [[item for item in data.items if item["name"] == name]] *)
Fixpoint items_named (name : value) (items : list item) : result (list item) :=
  match items with
  | [] => Ok []
  | itm :: rest =>
      try n := getitem itm "name" in
      try found := items_named name rest in
      Ok (if py_eq n name then itm :: found else found)
  end.

(** [complete_item_service] and [incomplete_item_service]: the same body
    but for the flag written under ["complete"] and the text logged when no
    item has the name ([IndexError] is caught, nothing else is). *)
Definition mark_item_service (complete : bool) (data : item) : call unit :=
  λ items,
    let name := dict_get_or_None data ATTR_NAME in
    let type := dict_get_or_None data ATTR_TYPE in
    if bool_decide (name = VNone) then (Ok tt, items)
    else
      match items_named name items with
      | Raise e => (Raise e, items)
      | Ok [] => (Ok tt, items)
      | Ok (itm :: _) =>
          match getitem itm "id" with
          | Raise e => (Raise e, items)
          | Ok item_id =>
              match
                async_update_value item_id
                  {[ "name" := name; "type" := type;
                     "complete" := VBool complete ]} items
              with
              | (Ok _, items) => (Ok tt, items)
              | (Raise e, items) => (Raise e, items)
              end
          end
      end.

Definition complete_item_service : item → call unit := mark_item_service true.
Definition incomplete_item_service : item → call unit := mark_item_service false.

(** [clear_complete_service] *)
Definition clear_complete_service : call unit := async_clear_completed.

(** [complete_all_service] and [incomplete_all_service] *)
Definition complete_all_service : call unit :=
  λ items, (Ok tt, (async_update_list {[ "complete" := VBool true ]} items).2).

Definition incomplete_all_service : call unit :=
  λ items, (Ok tt, (async_update_list {[ "complete" := VBool false ]} items).2).

(** What a view returns: [self.json(result)] with status 200, or
    [self.json_message(message, status_code)]. *)
Inductive response : Type :=
  | json_item (result : item)
  | json_items (result : list item)
  | json_message (message : string) (status_code : Z).



(** [vol.Schema({vol.Required("name"): str})], the schema given to
    [RequestDataValidator] on [CreateCheckListItemView.post]: the key
    ["name"] must be there with a string, and no other key is let in. *)
Definition CREATE_ITEM_SCHEMA (data : item) : result item :=
  if forallb (λ kv, bool_decide (kv.1 = "name") &&
                    match kv.2 with VStr _ => true | _ => false end)
             (map_to_list data)
     && bool_decide (is_Some (data !! "name"))
  then Ok data
  else Raise Invalid.

(** [CreateCheckListItemView.post], called with the validated [data]. *)
Definition CreateCheckListItemView_post (uuid4_hex : string) (data : item)
  : call response :=
  λ items,
    match getitem data "name" with
    | Raise e => (Raise e, items)
    | Ok name =>
        match getitem data "type" with
        | Raise e => (Raise e, items)
        | Ok type =>
            match async_add uuid4_hex name type items with
            | (Ok itm, items) => (Ok (json_item itm), items)
            | (Raise e, items) => (Raise e, items)
            end
        end
    end.

(** What a websocket command sends: [result_message(id, result)] or
    [error_message(id, code, message)]. *)
Inductive ws_result : Type :=
  | result_None
  | result_item (itm : item)
  | result_items (items : list item).

(** [ERR_NOT_FOUND] and [ERR_INVALID_FORMAT] are constants of the websocket
    API; the other codes are literals of this file. *)
Inductive ws_code : Type :=
  | ERR_NOT_FOUND
  | ERR_INVALID_FORMAT
  | code (literal : string).

Inductive ws_message : Type :=
  | result_message (id : value) (result : ws_result)
  | error_message (id : value) (error : ws_code) (message : string).

(** [websocket_handle_items] *)
Definition websocket_handle_items (msg : item) : call ws_message :=
  λ items,
    match getitem msg "id" with
    | Raise e => (Raise e, items)
    | Ok id => (Ok (result_message id (result_items items)), items)
    end.

(** [websocket_handle_add]: the item is added before [msg["id"]] is read. *)
Definition websocket_handle_add (uuid4_hex : string) (msg : item)
  : call ws_message :=
  λ items,
    match getitem msg "name" with
    | Raise e => (Raise e, items)
    | Ok name =>
        match getitem msg "type" with
        | Raise e => (Raise e, items)
        | Ok type =>
            match async_add uuid4_hex name type items with
            | (Raise e, items) => (Raise e, items)
            | (Ok itm, items) =>
                match getitem msg "id" with
                | Raise e => (Raise e, items)
                | Ok id => (Ok (result_message id (result_item itm)), items)
                end
            end
        end
    end.

(** [websocket_handle_update]: ["id"], ["item_id"] and ["type"] are popped
    from the message and what is left of it is the [info] of the update;
    [KeyError] of the update is caught, [vol.Invalid] is not. *)
Definition websocket_handle_update (msg : item) : call ws_message :=
  λ items,
    match getitem msg "id" with
    | Raise e => (Raise e, items)
    | Ok msg_id =>
        let msg := delete "id" msg in
        match getitem msg "item_id" with
        | Raise e => (Raise e, items)
        | Ok item_id =>
            let msg := delete "item_id" msg in
            match getitem msg "type" with
            | Raise e => (Raise e, items)
            | Ok _ =>
                let data := delete "type" msg in
                match async_update_value item_id data items with
                | (Ok itm, items) =>
                    (Ok (result_message msg_id (result_item itm)), items)
                | (Raise KeyError, items) =>
                    (Ok (error_message msg_id (code "item_not_found")
                                       "Item not found"), items)
                | (Raise e, items) => (Raise e, items)
                end
            end
        end
    end.

(** [websocket_handle_clear] *)
Definition websocket_handle_clear (msg : item) : call ws_message :=
  λ items,
    match async_clear_completed items with
    | (Raise e, items) => (Raise e, items)
    | (Ok _, items) =>
        match getitem msg "id" with
        | Raise e => (Raise e, items)
        | Ok id => (Ok (result_message id result_None), items)
        end
    end.

(** [websocket_handle_reorder]; [item_ids] is the list of strings the
    message holds under ["item_ids"], the rest of the message is [msg].
    The message sent for [vol.Invalid] is the text [async_reorder] raises
    it with. *)
Definition websocket_handle_reorder (msg : item) (item_ids : list string)
  : call ws_message :=
  λ items,
    match getitem msg "id" with
    | Raise e => (Raise e, items)
    | Ok msg_id =>
        match async_reorder item_ids items with
        | (Ok _, items) => (Ok (result_message msg_id result_None), items)
        | (Raise KeyError, items) =>
            (Ok (error_message msg_id ERR_NOT_FOUND
                               "One or more item id(s) not found."), items)
        | (Raise Invalid, items) =>
            (Ok (error_message msg_id ERR_INVALID_FORMAT
                   "The item ids array doesn't contain all the unchecked check list items."),
             items)
        end
    end.

(** A message [SCHEMA_WEBSOCKET_UPDATE_ITEM] lets through: ["id"] (asked
    for by the base schema of the websocket API), ["type"] equal to the
    name of the command and ["item_id"] with a string must be there;
    ["name"] with a string and ["complete"] with a boolean may be there;
    nothing else may. *)
Definition ws_update_field (k : string) (v : value) : bool :=
  if bool_decide (k = "id") then
    match v with VInt _ => true | _ => false end
  else if bool_decide (k = "type") then
    bool_decide (v = VStr WS_TYPE_SHOPPING_LIST_UPDATE_ITEM)
  else if bool_decide (k = "item_id") then
    match v with VStr _ => true | _ => false end
  else if bool_decide (k = "name") then
    match v with VStr _ => true | _ => false end
  else if bool_decide (k = "complete") then
    match v with VBool _ => true | _ => false end
  else false.

Definition SCHEMA_WEBSOCKET_UPDATE_ITEM (msg : item) : bool :=
  forallb (λ kv, ws_update_field kv.1 kv.2) (map_to_list msg)
  && bool_decide (is_Some (msg !! "id"))
  && bool_decide (is_Some (msg !! "type"))
  && bool_decide (is_Some (msg !! "item_id")).

(** ** More vocabulary *)

(** An item as it is stored: the five keys [async_add] writes and no other,
    with a string id, a boolean flag and an integer index. *)
Definition stored_item (itm : item) : bool :=
  bool_decide (dom itm = ({[ "name"; "type"; "id"; "complete"; "index" ]} : gset string))
  && match itm !! "id", itm !! "complete", itm !! "index" with
     | Some (VStr _), Some (VBool _), Some (VInt _) => true
     | _, _, _ => false
     end.

(** The calls whose [info] is checked by [ITEM_UPDATE_SCHEMA] or would pass
    it: every call but an [UpdateAll] with an [info] the schema refuses. *)
Definition checked (op : operation) : Prop :=
  match op with
  | UpdateAll info => valid_fields info
  | _ => True
  end.

(** The item is kept by [async_clear_completed]: [not itm["complete"]]. *)
Definition unchecked (itm : item) : Prop :=
  truthy <$> itm !! "complete" = Some false.

#[global] Instance unchecked_dec (itm : item) : Decision (unchecked itm).
Proof. unfold unchecked. apply _. Defined.

(** The ids given are ids of the list, none of them twice. *)
Definition placeable (item_ids : list string) (items : list item) : Prop :=
  NoDup item_ids ∧ item_ids ⊆ ids items.

(** ** Sample items *)

Definition sample (i n : string) (c : bool) (x : Z) : item :=
  {[ "name" := VStr n; "type" := VNone; "id" := VStr i;
     "complete" := VBool c; "index" := VInt x ]}.

Definition item_A : item := sample "a" "Milk" true 0.
Definition item_B : item := sample "b" "Eggs" false 1.
Definition item_C : item := sample "c" "Flour" false 2.

(** Closed decidable goals, by evaluation. *)
Ltac by_compute := apply (bool_decide_unpack _); by vm_compute.

(** ** Values *)

Lemma py_eq_str (v : value) (s : string) : py_eq v (VStr s) = true ↔ v = VStr s.
Proof.
  destruct v; simpl; try (split; [done | congruence]).
  rewrite bool_decide_eq_true. split; congruence.
Qed.

Lemma py_eq_str_refl (s : string) : py_eq (VStr s) (VStr s) = true.
Proof. by apply py_eq_str. Qed.

Lemma py_eq_str_ne (s t : string) : s ≠ t → py_eq (VStr s) (VStr t) = false.
Proof. intros Hne. simpl. by rewrite bool_decide_eq_false. Qed.

Lemma is_item_id (itm : item) : is_item itm → itm !! "id" = Some (VStr (str_id itm)).
Proof.
  unfold is_item, str_id. destruct (itm !! "id") as [[]|]; simpl; done.
Qed.

Lemma is_item_complete (itm : item) :
  is_item itm → ∃ b, itm !! "complete" = Some (VBool b).
Proof.
  unfold is_item. destruct (itm !! "id") as [[]|]; simpl; try done.
  destruct (itm !! "complete") as [[]|]; simpl; try done. eauto.
Qed.

Lemma id_of_str (itm : item) : is_item itm → id_of itm = Some (VStr (str_id itm)).
Proof. apply is_item_id. Qed.

Lemma distinct_ids_NoDup (items : list item) :
  Forall is_item items → distinct_ids items → NoDup (ids items).
Proof.
  unfold distinct_ids, ids. induction 1 as [|itm l Hitm Hl IH]; simpl.
  - constructor.
  - rewrite !NoDup_cons. intros [Hnotin Hnd]. split; [|by apply IH].
    intros Hin. apply Hnotin.
    apply list_elem_of_fmap in Hin as (itm' & Heq & Hin').
    apply list_elem_of_fmap. exists itm'. split; [|done].
    rewrite (id_of_str itm) by done.
    rewrite (id_of_str itm'); [by rewrite Heq|].
    by eapply Forall_forall in Hl.
Qed.

(** ** The schema *)

Lemma schema_valid (info : item) : valid_fields info → ITEM_UPDATE_SCHEMA info = Ok info.
Proof.
  intros Hv. unfold ITEM_UPDATE_SCHEMA.
  replace (forallb _ _) with true; [done|]. symmetry.
  apply forallb_forall. intros [k v] Hin. simpl.
  apply list_elem_of_In, elem_of_map_to_list in Hin.
  apply Is_true_true. by apply (Hv k v).
Qed.

Lemma schema_invalid (info : item) : ¬ valid_fields info → ITEM_UPDATE_SCHEMA info = Raise Invalid.
Proof.
  intros Hv. unfold ITEM_UPDATE_SCHEMA.
  destruct (forallb _ _) eqn:Hall; [|done]. exfalso. apply Hv.
  intros k v Hkv. rewrite forallb_forall in Hall.
  apply Is_true_true. apply (Hall (k, v)).
  by apply list_elem_of_In, elem_of_map_to_list.
Qed.

Lemma valid_fields_no_id (info : item) : valid_fields info → info !! "id" = None.
Proof.
  intros Hv. destruct (info !! "id") as [v|] eqn:Hid; [|done].
  apply Hv in Hid. by destruct v.
Qed.

Lemma valid_fields_keys (info : item) (k : string) (v : value) :
  valid_fields info → info !! k = Some v →
  (k = "complete" ∧ ∃ b, v = VBool b) ∨
  (k = "name" ∧ ∃ s, v = VStr s) ∨
  (k = "type" ∧ ∃ s, v = VStr s).
Proof.
  intros Hv Hk. apply Hv in Hk. unfold schema_field in Hk.
  repeat case_bool_decide; destruct v; try done; eauto 6.
Qed.

Lemma dict_update_lookup (info d : item) (k : string) :
  dict_update info d !! k =
  match info !! k with Some v => Some v | None => d !! k end.
Proof.
  unfold dict_update. rewrite lookup_union.
  destruct (info !! k), (d !! k); done.
Qed.

(** ** The mapping of [async_reorder] *)

#[local] Arguments py_eq : simpl never.

Lemma dict_get_del_eq (k : value) (m : mapping) : dict_get k (dict_del k m) = None.
Proof.
  induction m as [|[k' v] m IH]; simpl; [done|].
  destruct (py_eq k' k) eqn:Hk; simpl; [done|]. by rewrite Hk.
Qed.

Lemma dict_get_del_None (k k' : value) (m : mapping) :
  dict_get k m = None → dict_get k (dict_del k' m) = None.
Proof.
  induction m as [|[k0 v] m IH]; simpl; [done|].
  destruct (py_eq k0 k) eqn:Hk; [done|]. intros Hm.
  destruct (py_eq k0 k'); simpl; [auto|]. rewrite Hk. auto.
Qed.

Lemma dict_get_set_str (s : string) (k : value) (v : item) (m : mapping) :
  k ≠ VStr s → dict_get (VStr s) m = None →
  dict_get (VStr s) (dict_set k v m) = None.
Proof.
  intros Hne. induction m as [|[k0 v0] m IH]; simpl.
  - intros _. destruct (py_eq k (VStr s)) eqn:Hk; [|done].
    by apply py_eq_str in Hk.
  - destruct (py_eq k0 (VStr s)) eqn:Hk0; [done|]. intros Hm.
    destruct (py_eq k0 k); simpl; rewrite Hk0; auto.
Qed.

Lemma items_mapping_get_None (s : string) (items : list item) (m m' : mapping) :
  (∀ itm, itm ∈ items → itm !! "id" ≠ Some (VStr s)) →
  dict_get (VStr s) m = None →
  items_mapping items m = Ok m' →
  dict_get (VStr s) m' = None.
Proof.
  revert m. induction items as [|itm items IH]; intros m Hno Hm; simpl.
  - by intros [= <-].
  - unfold getitem. destruct (itm !! "id") as [k|] eqn:Hid; simpl; [|done].
    apply IH.
    + intros itm' Hin. apply Hno. by right.
    + apply dict_get_set_str; [|done]. intros ->.
      by apply (Hno itm); [left|].
Qed.

Lemma items_mapping_exn (items : list item) (m : mapping) (e : exn) :
  items_mapping items m = Raise e → e = KeyError.
Proof.
  revert m. induction items as [|itm items IH]; intros m; simpl; [done|].
  unfold getitem. destruct (itm !! "id"); simpl; [apply IH | congruence].
Qed.

Lemma append_by_order_missing (s : string) (item_ids : list string)
    (m : mapping) (acc : list item) :
  s ∈ item_ids → dict_get (VStr s) m = None →
  append_by_order item_ids m acc = Raise KeyError.
Proof.
  revert m acc. induction item_ids as [|x rest IH]; intros m acc Hin Hm.
  - by apply elem_of_nil in Hin.
  - simpl. destruct (dict_get (VStr x) m) as [itm|] eqn:Hx; [|done].
    apply elem_of_cons in Hin as [->|Hin]; [congruence|].
    apply IH; [done|]. by apply dict_get_del_None.
Qed.

Lemma append_by_order_repeated (item_ids : list string) (m : mapping)
    (acc : list item) :
  ¬ NoDup item_ids → append_by_order item_ids m acc = Raise KeyError.
Proof.
  revert m acc. induction item_ids as [|x rest IH]; intros m acc Hdup.
  - destruct Hdup. constructor.
  - simpl. destruct (dict_get (VStr x) m) as [itm|] eqn:Hx; [|done].
    destruct (decide (x ∈ rest)) as [Hin|Hnotin].
    + apply (append_by_order_missing x); [done|]. apply dict_get_del_eq.
    + apply IH. intros Hnd. apply Hdup. by constructor.
Qed.

(** What the mapping holds is taken from the list, each item at most once. *)
Lemma dict_set_values (k : value) (v : item) (m : mapping) :
  (dict_set k v m).*2 ⊆+ v :: m.*2.
Proof.
  induction m as [|[k' v'] m IH]; simpl; [done|].
  destruct (py_eq k' k); simpl.
  - apply submseteq_skip. by apply submseteq_cons.
  - rewrite (Permutation_swap v' v). by apply submseteq_skip.
Qed.

Lemma items_mapping_values (items : list item) (m m' : mapping) :
  items_mapping items m = Ok m' → m'.*2 ⊆+ items ++ m.*2.
Proof.
  revert m. induction items as [|itm items IH]; intros m; simpl.
  - by intros [= <-].
  - unfold getitem. destruct (itm !! "id") as [k|]; simpl; [|done].
    intros Hm%IH. etrans; [done|].
    rewrite (Permutation_middle items (m.*2) itm).
    apply submseteq_app; [done | apply dict_set_values].
Qed.

Lemma dict_del_values (k : value) (m : mapping) : (dict_del k m).*2 ⊆+ m.*2.
Proof.
  induction m as [|[k' v] m IH]; simpl; [done|].
  destruct (py_eq k' k); simpl.
  - by apply submseteq_cons.
  - by apply submseteq_skip.
Qed.

Lemma dict_get_del_values (k : value) (v : item) (m : mapping) :
  dict_get k m = Some v → v :: (dict_del k m).*2 ⊆+ m.*2.
Proof.
  induction m as [|[k' v'] m IH]; simpl; [done|].
  destruct (py_eq k' k); simpl.
  - intros [= ->]. apply submseteq_skip, dict_del_values.
  - intros Hm. rewrite (Permutation_swap v' v). by apply submseteq_skip, IH.
Qed.

Lemma append_by_order_values (item_ids : list string) (m m' : mapping)
    (acc new_items : list item) :
  append_by_order item_ids m acc = Ok (new_items, m') →
  new_items ++ m'.*2 ⊆+ acc ++ m.*2.
Proof.
  revert m acc. induction item_ids as [|x rest IH]; intros m acc; simpl.
  - by intros [= <- <-].
  - destruct (dict_get (VStr x) m) as [itm|] eqn:Hx; [|done].
    intros Hrec%IH. etrans; [done|].
    rewrite <-(assoc_L (++)). apply submseteq_app; [done|].
    by apply dict_get_del_values.
Qed.

Lemma append_rest_values (m : mapping) (acc new_items : list item) :
  append_rest m acc = Ok new_items → new_items = acc ++ m.*2.
Proof.
  revert acc. induction m as [|[k itm] m IH]; intros acc; simpl.
  - intros [= <-]. by rewrite (right_id_L [] (++)).
  - unfold getitem. destruct (itm !! "complete") as [c|]; simpl; [|done].
    destruct (is_False c); [done|]. intros ->%IH.
    by rewrite <-(assoc_L (++)).
Qed.

Lemma reordered_submseteq (item_ids : list string) (items new_items : list item) :
  reordered item_ids items = Ok new_items → new_items ⊆+ items.
Proof.
  unfold reordered.
  destruct (items_mapping items []) as [m|] eqn:Hm; simpl; [|done].
  destruct (append_by_order item_ids m []) as [[placed m']|] eqn:Hp; simpl; [|done].
  intros ->%append_rest_values.
  apply append_by_order_values in Hp. apply items_mapping_values in Hm.
  simpl in *. rewrite (right_id_L [] (++)) in Hm. by etrans.
Qed.

Lemma reordered_exn_order (item_ids : list string) (items : list item) :
  (∃ s, s ∈ item_ids ∧ ∀ itm, itm ∈ items → itm !! "id" ≠ Some (VStr s)) ∨
  ¬ NoDup item_ids →
  reordered item_ids items = Raise KeyError.
Proof.
  intros Hbad. unfold reordered.
  destruct (items_mapping items []) as [m|e] eqn:Hm; simpl.
  - replace (append_by_order item_ids m []) with (@Raise (list item * mapping) KeyError);
      [done|]. symmetry.
    destruct Hbad as [(s & Hin & Hno)|Hdup].
    + apply (append_by_order_missing s); [done|].
      by apply (items_mapping_get_None s items []).
    + by apply append_by_order_repeated.
  - by apply items_mapping_exn in Hm as ->.
Qed.

(** ** The mapping of a list of items with distinct ids *)

Lemma dict_get_entries_None (s : string) (l : list item) :
  s ∉ ids l → dict_get (VStr s) (entry <$> l) = None.
Proof.
  induction l as [|itm l IH]; simpl; [done|].
  rewrite not_elem_of_cons. intros [Hne Hnotin].
  rewrite py_eq_str_ne by done. by apply IH.
Qed.

Lemma dict_get_entries (s : string) (l : list item) :
  s ∈ ids l →
  ∃ itm, dict_get (VStr s) (entry <$> l) = Some itm ∧ itm ∈ l ∧ str_id itm = s.
Proof.
  induction l as [|itm l IH]; simpl.
  - by intros ?%elem_of_nil.
  - destruct (decide (str_id itm = s)) as [<-|Hne].
    + intros _. exists itm. rewrite py_eq_str_refl. split_and!; [done|by left|done].
    + rewrite elem_of_cons. intros [?|Hin]; [congruence|].
      destruct (IH Hin) as (itm' & Hget & Hin' & Hid).
      exists itm'. rewrite py_eq_str_ne by done. split_and!; [done|by right|done].
Qed.

Lemma dict_del_entries (s : string) (l : list item) :
  dict_del (VStr s) (entry <$> l) = entry <$> filter (λ itm, str_id itm ≠ s) l.
Proof.
  induction l as [|itm l IH]; [done|].
  rewrite filter_cons, fmap_cons. unfold entry at 1. simpl dict_del.
  destruct (decide (str_id itm = s)) as [<-|Hne].
  - rewrite py_eq_str_refl. by rewrite decide_False by auto.
  - rewrite py_eq_str_ne by done. rewrite decide_True by done.
    by rewrite fmap_cons, IH.
Qed.

Lemma dict_set_entries (itm : item) (l : list item) :
  str_id itm ∉ ids l →
  dict_set (VStr (str_id itm)) itm (entry <$> l) = entry <$> (l ++ [itm]).
Proof.
  induction l as [|itm' l IH]; [done|].
  unfold ids. rewrite fmap_cons, not_elem_of_cons. intros [Hne Hnotin].
  rewrite <-app_comm_cons, !fmap_cons. unfold entry at 1. simpl dict_set.
  rewrite py_eq_str_ne by done. by rewrite IH.
Qed.

Lemma items_mapping_entries (items l0 : list item) :
  Forall is_item items → NoDup (ids (l0 ++ items)) →
  items_mapping items (entry <$> l0) = Ok (entry <$> (l0 ++ items)).
Proof.
  intros Hitems. revert l0.
  induction Hitems as [|itm items Hitm _ IH]; intros l0 Hnd; simpl.
  - by rewrite (right_id_L [] (++)).
  - unfold getitem. rewrite is_item_id by done. simpl.
    assert (str_id itm ∉ ids l0) as Hfresh.
    { unfold ids in Hnd. rewrite fmap_app in Hnd. simpl in Hnd.
      apply NoDup_app in Hnd as (_ & Hdisj & _).
      intros Hin. apply (Hdisj _ Hin). by left. }
    rewrite dict_set_entries by done.
    rewrite IH; rewrite <-(assoc_L (++)); done.
Qed.

Lemma filter_keeps_all {X} (P : X → Prop) `{!∀ x, Decision (P x)} (l : list X) :
  (∀ x, x ∈ l → P x) → filter P l = l.
Proof.
  induction l as [|x l IH]; intros HP; [done|].
  rewrite filter_cons_True by (apply HP; by left).
  f_equal. apply IH. intros y Hy. apply HP. by right.
Qed.

Lemma filter_keeps_none {X} (P : X → Prop) `{!∀ x, Decision (P x)} (l : list X) :
  (∀ x, x ∈ l → ¬ P x) → filter P l = [].
Proof.
  induction l as [|x l IH]; intros HP; [done|].
  rewrite filter_cons_False by (apply HP; by left).
  apply IH. intros y Hy. apply HP. by right.
Qed.

Lemma submseteq_NoDup {X} (l k : list X) : l ⊆+ k → NoDup k → NoDup l.
Proof.
  intros (k' & Hk)%submseteq_Permutation Hnd. rewrite Hk in Hnd.
  by apply NoDup_app in Hnd as (? & _ & _).
Qed.

(** The first loop on the mapping of a list [l]: the items named by
    [item_ids] are appended in that order, and the mapping keeps the items
    of [l] that were not named, in the order of [l]. *)
Lemma append_by_order_entries (item_ids : list string) (l acc : list item) :
  NoDup item_ids → item_ids ⊆ ids l →
  ∃ named,
    append_by_order item_ids (entry <$> l) acc =
      Ok (acc ++ named, entry <$> filter (λ itm, str_id itm ∉ item_ids) l) ∧
    ids named = item_ids ∧ named ⊆ l.
Proof.
  revert l acc. induction item_ids as [|s rest IH]; intros l acc Hnd Hsub.
  - exists []. simpl. rewrite (right_id_L [] (++)).
    rewrite filter_keeps_all by (intros x _; apply not_elem_of_nil).
    split_and!; [done..|]. intros x ?%elem_of_nil. done.
  - apply NoDup_cons in Hnd as [Hs Hnd].
    destruct (dict_get_entries s l) as (itm & Hget & Hin & Hid).
    { apply Hsub. by left. }
    destruct (IH (filter (λ itm, str_id itm ≠ s) l) (acc ++ [itm]) Hnd)
      as (named & Hrun & Hids & Hnamed).
    { intros x Hx. unfold ids. apply list_elem_of_fmap.
      assert (x ∈ ids l) as Hxl by (apply Hsub; by right).
      apply list_elem_of_fmap in Hxl as (itm' & -> & Hin').
      exists itm'. split; [done|]. apply list_elem_of_filter. split; [|done].
      intros Heq. apply Hs. by rewrite <-Heq. }
    exists (itm :: named). split_and!.
    + simpl. rewrite Hget, dict_del_entries, Hrun.
      rewrite <-(assoc_L (++)). simpl. do 3 f_equal.
      rewrite list_filter_filter. apply list_filter_iff.
      intros x. rewrite not_elem_of_cons. tauto.
    + unfold ids in *. rewrite fmap_cons. by rewrite Hid, Hids.
    + intros x Hx. apply elem_of_cons in Hx as [->|Hx]; [done|].
      apply Hnamed in Hx. by apply list_elem_of_filter in Hx as [_ ?].
Qed.

(** The second loop on the mapping of a list [l]. *)
Lemma append_rest_completed (l acc : list item) :
  Forall (λ itm, itm !! "complete" = Some (VBool true)) l →
  append_rest (entry <$> l) acc = Ok (acc ++ l).
Proof.
  intros Hl. revert acc.
  induction Hl as [|itm l Hitm _ IH]; intros acc; simpl.
  - by rewrite (right_id_L [] (++)).
  - unfold getitem. rewrite Hitm. simpl. rewrite IH.
    by rewrite <-(assoc_L (++)).
Qed.

Lemma append_rest_unchecked (l acc : list item) (itm : item) :
  Forall is_item l → itm ∈ l → itm !! "complete" = Some (VBool false) →
  append_rest (entry <$> l) acc = Raise Invalid.
Proof.
  intros Hl. revert acc.
  induction Hl as [|itm' l Hitm' _ IH]; intros acc Hin Hc; simpl.
  - by apply elem_of_nil in Hin.
  - unfold getitem.
    destruct (is_item_complete itm' Hitm') as [[] Hb]; rewrite Hb; simpl; [|done].
    apply IH; [|done]. apply elem_of_cons in Hin as [->|Hin]; [congruence|done].
Qed.

(** [async_reorder] on a list of items with distinct ids, given ids of the
    list without repetition. *)
Lemma reordered_entries (item_ids : list string) (items : list item) :
  Forall is_item items → distinct_ids items →
  NoDup item_ids → item_ids ⊆ ids items →
  ∃ named,
    reordered item_ids items =
      append_rest (entry <$> filter (λ itm, str_id itm ∉ item_ids) items) named ∧
    ids named = item_ids ∧ named ⊆ items.
Proof.
  intros Hitems Hdist Hnd Hsub. unfold reordered.
  pose proof (items_mapping_entries items [] Hitems) as Hmap.
  simpl in Hmap. rewrite Hmap by (by apply distinct_ids_NoDup). simpl.
  destruct (append_by_order_entries item_ids items [] Hnd Hsub)
    as (named & -> & Hids & Hnamed).
  simpl. by exists named.
Qed.

Lemma append_by_order_app (l1 l2 : list string) (m : mapping) (acc : list item) :
  append_by_order (l1 ++ l2) m acc =
  try placed := append_by_order l1 m acc in
  append_by_order l2 placed.2 placed.1.
Proof.
  revert m acc. induction l1 as [|x l1 IH]; intros m acc; simpl; [done|].
  destruct (dict_get (VStr x) m); [apply IH | done].
Qed.

(** ** Reorder *)

(** C5: when [item_ids] holds an id that no item of the list has,
    [async_reorder] raises [KeyError] (item not found) and the list stays
    as it was.  This holds for every list, whatever its items. *)
Theorem reorder_unknown_id (items : list item) (item_ids : list string) (s : string) :
  s ∈ item_ids →
  (∀ itm, itm ∈ items → itm !! "id" ≠ Some (VStr s)) →
  async_reorder item_ids items = (Raise KeyError, items).
Proof.
  intros Hin Hno. unfold async_reorder.
  rewrite reordered_exn_order; [done|]. left. eauto.
Qed.

Lemma reorder_unknown_id_witness :
  async_reorder ["c"; "x"; "a"] [item_A; item_B; item_C] =
    (Raise KeyError, [item_A; item_B; item_C]).
Proof.
  apply (reorder_unknown_id _ _ "x").
  - by_compute.
  - intros itm Hin. repeat (apply elem_of_cons in Hin as [->|Hin]); [done..|].
    by apply elem_of_nil in Hin.
Defined.

(** C10: when some id occurs twice in [item_ids], [async_reorder] raises
    [KeyError] (item not found) and the list stays as it was, also when
    every id of [item_ids] is the id of an item: an id leaves the mapping
    when it is placed, so its second occurrence is not found. *)
Theorem reorder_repeated_id (items : list item) (item_ids : list string)
    (s : string) (l1 l2 l3 : list string) :
  item_ids = l1 ++ s :: l2 ++ s :: l3 →
  (∀ m, dict_get (VStr s) (dict_del (VStr s) m) = None) ∧
  (∀ m acc, append_by_order (s :: l2 ++ s :: l3) m acc = Raise KeyError) ∧
  async_reorder item_ids items = (Raise KeyError, items).
Proof.
  intros ->. split_and!.
  - intros m. apply dict_get_del_eq.
  - intros m acc. apply append_by_order_repeated.
    rewrite NoDup_cons. intros [Hs _]. apply Hs. set_solver.
  - unfold async_reorder. rewrite reordered_exn_order; [done|]. right.
    rewrite NoDup_app. intros (_ & _ & Hnd).
    apply NoDup_cons in Hnd as [Hs _]. apply Hs. set_solver.
Qed.

Lemma reorder_repeated_id_witness :
  async_reorder ["c"; "b"; "a"; "b"] [item_A; item_B; item_C] =
    (Raise KeyError, [item_A; item_B; item_C]).
Proof.
  by apply (reorder_repeated_id [item_A; item_B; item_C] _ "b" ["c"] ["a"] []).
Defined.

(** C3: on a list of items with distinct ids, when [item_ids] is a
    permutation of the ids of the list, [async_reorder] succeeds and the
    list afterwards holds the same items, in the order [item_ids] gives. *)
Theorem reorder_permutation (items : list item) (item_ids : list string) :
  Forall is_item items → distinct_ids items →
  item_ids ≡ₚ ids items →
  ∃ new_items,
    async_reorder item_ids items = (Ok tt, new_items) ∧
    ids new_items = item_ids ∧
    new_items ≡ₚ items.
Proof.
  intros Hitems Hdist Hperm.
  assert (NoDup item_ids) as Hnd.
  { rewrite Hperm. by apply distinct_ids_NoDup. }
  destruct (reordered_entries item_ids items) as (named & Hrun & Hids & Hnamed);
    [done..| |].
  { intros x Hx. by rewrite <-Hperm. }
  exists named. unfold async_reorder. rewrite Hrun.
  rewrite filter_keeps_none; last first.
  { intros itm Hin Hnot. apply Hnot. rewrite Hperm.
    unfold ids. apply list_elem_of_fmap. eauto. }
  simpl. split_and!; [done..|].
  apply submseteq_length_Permutation.
  - apply NoDup_submseteq; [|done].
    apply (NoDup_fmap_1 str_id). fold (ids named). by rewrite Hids.
  - rewrite <-(length_fmap str_id items), <-(length_fmap str_id named).
    fold (ids items) (ids named). by rewrite Hids, Hperm.
Qed.

Lemma reorder_permutation_witness :
  ∃ new_items,
    async_reorder ["c"; "a"; "b"] [item_A; item_B; item_C] = (Ok tt, new_items) ∧
    ids new_items = ["c"; "a"; "b"] ∧
    new_items ≡ₚ [item_A; item_B; item_C].
Proof.
  apply reorder_permutation.
  - repeat constructor.
  - unfold distinct_ids. by_compute.
  - by apply (Permutation_cons_app ["a"; "b"] [] "c").
Defined.

(** C2, as stated, at [item_ids = ["a"; "a"]]: both ids are ids of the
    list and the unchecked item ["b"] is left out, yet the call raises
    [KeyError] at the second ["a"], not [vol.Invalid]. *)
Lemma reorder_omitted_repeated_id :
  let items := [item_A; item_B] in
  let item_ids := ["a"; "a"] in
  Forall is_item items ∧ distinct_ids items ∧
  (∀ s, s ∈ item_ids → ∃ itm, itm ∈ items ∧ itm !! "id" = Some (VStr s)) ∧
  (∃ itm, itm ∈ items ∧ (str_id itm ∉ item_ids) ∧
          itm !! "complete" = Some (VBool false)) ∧
  async_reorder item_ids items = (Raise KeyError, items) ∧
  async_reorder item_ids items ≠ (Raise Invalid, items).
Proof.
  simpl. split_and!.
  - repeat constructor.
  - unfold distinct_ids. by_compute.
  - intros s Hs. exists item_A. split; [by left|].
    repeat (apply elem_of_cons in Hs as [->|Hs]); [done..|].
    by apply elem_of_nil in Hs.
  - exists item_B. split_and!; [by_compute | by_compute | done].
  - done.
  - done.
Qed.

(** C2 (amended): on a list of items with distinct ids, when [item_ids]
    holds ids of the list, none of them twice, and leaves out an item whose
    [complete] is [False], [async_reorder] raises [vol.Invalid] and the list
    stays as it was. *)
Theorem reorder_unchecked_omitted (items : list item) (item_ids : list string)
    (itm : item) :
  Forall is_item items → distinct_ids items →
  NoDup item_ids → item_ids ⊆ ids items →
  itm ∈ items → str_id itm ∉ item_ids →
  itm !! "complete" = Some (VBool false) →
  async_reorder item_ids items = (Raise Invalid, items).
Proof.
  intros Hitems Hdist Hnd Hsub Hin Hout Hc.
  destruct (reordered_entries item_ids items) as (named & Hrun & _); [done..|].
  unfold async_reorder. rewrite Hrun.
  rewrite (append_rest_unchecked _ _ itm); [done| |by apply list_elem_of_filter|done].
  apply Forall_forall. intros x [_ Hx]%list_elem_of_filter.
  by eapply Forall_forall in Hitems.
Qed.

Lemma reorder_unchecked_omitted_witness :
  async_reorder ["b"] [item_A; item_B; item_C] =
    (Raise Invalid, [item_A; item_B; item_C]).
Proof.
  apply (reorder_unchecked_omitted _ _ item_C).
  - repeat constructor.
  - unfold distinct_ids. by_compute.
  - by_compute.
  - intros s Hs. apply list_elem_of_singleton in Hs as ->. by_compute.
  - by_compute.
  - by_compute.
  - done.
Defined.

(** C4, as stated, at [item_ids = ["b"; "b"]]: both ids are ids of the
    list and the only item left out is completed, yet the call fails. *)
Lemma reorder_completed_repeated_id :
  let items := [item_A; item_B] in
  let item_ids := ["b"; "b"] in
  Forall is_item items ∧ distinct_ids items ∧
  (∀ s, s ∈ item_ids → ∃ itm, itm ∈ items ∧ itm !! "id" = Some (VStr s)) ∧
  (∀ itm, itm ∈ items → str_id itm ∉ item_ids →
          itm !! "complete" = Some (VBool true)) ∧
  async_reorder item_ids items = (Raise KeyError, items) ∧
  ¬ ∃ new_items, async_reorder item_ids items = (Ok tt, new_items).
Proof.
  simpl. split_and!.
  - repeat constructor.
  - unfold distinct_ids. by_compute.
  - intros s Hs. exists item_B. split; [by_compute|].
    repeat (apply elem_of_cons in Hs as [->|Hs]); [done..|].
    by apply elem_of_nil in Hs.
  - intros itm Hin Hout.
    repeat (apply elem_of_cons in Hin as [->|Hin]); [done| |by apply elem_of_nil in Hin].
    destruct Hout. by_compute.
  - done.
  - by intros [new_items Hrun].
Qed.

(** C4 (amended): on a list of items with distinct ids, when [item_ids]
    holds ids of the list, none of them twice, and every item it leaves out
    has [complete] equal to [True], [async_reorder] succeeds; the list
    afterwards is the items named by [item_ids], in that order, followed by
    the items left out, in the order they had before. *)
Theorem reorder_completed_appended (items : list item) (item_ids : list string) :
  Forall is_item items → distinct_ids items →
  NoDup item_ids → item_ids ⊆ ids items →
  (∀ itm, itm ∈ items → str_id itm ∉ item_ids →
          itm !! "complete" = Some (VBool true)) →
  ∃ named,
    async_reorder item_ids items =
      (Ok tt, named ++ filter (λ itm, str_id itm ∉ item_ids) items) ∧
    ids named = item_ids ∧ named ⊆ items.
Proof.
  intros Hitems Hdist Hnd Hsub Hdone.
  destruct (reordered_entries item_ids items) as (named & Hrun & Hids & Hnamed);
    [done..|].
  exists named. unfold async_reorder. rewrite Hrun.
  rewrite append_rest_completed; [done|].
  apply Forall_forall. intros x [Hout Hx]%list_elem_of_filter. by apply Hdone.
Qed.

Lemma reorder_completed_appended_witness :
  ∃ named,
    async_reorder ["c"; "b"] [item_A; item_B; item_C] =
      (Ok tt, named ++ filter (λ itm, str_id itm ∉ ["c"; "b"])
                              [item_A; item_B; item_C]) ∧
    ids named = ["c"; "b"] ∧ named ⊆ [item_A; item_B; item_C].
Proof.
  apply reorder_completed_appended.
  - repeat constructor.
  - unfold distinct_ids. by_compute.
  - by_compute.
  - intros s Hs.
    repeat (apply elem_of_cons in Hs as [->|Hs]); [by_compute..|].
    by apply elem_of_nil in Hs.
  - intros itm Hin Hout.
    repeat (apply elem_of_cons in Hin as [->|Hin]);
      [done | destruct Hout; by_compute.. | by apply elem_of_nil in Hin].
Defined.

(** The example of the specification: [A] completed, [B] and [C] not. *)
Example reorder_C_B : async_reorder ["c"; "b"] [item_A; item_B; item_C] =
  (Ok tt, [item_C; item_B; item_A]).
Proof. reflexivity. Qed.

(** ** Add *)

(** C8: [async_add] never fails; the item it returns has [complete] equal
    to [False] and [index] equal to the length of the list, carries the name,
    the type and the id drawn, and is put at the end of the list, whose
    former items stay in place; when the id drawn is the id of no item of the
    list, the id of the new item differs from the id of each of them. *)
Theorem add_item (items : list item) (uuid4_hex : string) (name type : value) :
  ∃ itm,
    async_add uuid4_hex name type items = (Ok itm, items ++ [itm]) ∧
    itm !! "complete" = Some (VBool false) ∧
    itm !! "index" = Some (VInt (Z.of_nat (length items))) ∧
    itm !! "name" = Some name ∧
    itm !! "type" = Some type ∧
    itm !! "id" = Some (VStr uuid4_hex) ∧
    dom itm = {[ "name"; "type"; "id"; "complete"; "index" ]} ∧
    take (length items) (items ++ [itm]) = items ∧
    (items ++ [itm]) !! length items = Some itm ∧
    length (items ++ [itm]) = S (length items) ∧
    ((∀ old, old ∈ items → id_of old ≠ Some (VStr uuid4_hex)) →
     ∀ old, old ∈ items → id_of old ≠ id_of itm).
Proof.
  eexists. split; [reflexivity|].
  split_and!; try reflexivity.
  - by rewrite take_app_length.
  - by rewrite list_lookup_middle.
  - rewrite length_app. simpl. lia.
  - intros Hfresh old Hold. by apply Hfresh.
Qed.

Lemma add_item_witness :
  ∃ itm,
    async_add "c" (VStr "Flour") VNone [item_A; item_B] =
      (Ok itm, [item_A; item_B] ++ [itm]) ∧
    itm !! "index" = Some (VInt 2) ∧
    ∀ old, old ∈ [item_A; item_B] → id_of old ≠ id_of itm.
Proof.
  destruct (add_item [item_A; item_B] "c" (VStr "Flour") VNone)
    as (itm & Hadd & _ & Hindex & _ & _ & _ & _ & _ & _ & _ & Hfresh).
  exists itm. split_and!; [done..|]. apply Hfresh.
  intros old Hold.
  repeat (apply elem_of_cons in Hold as [->|Hold]); [done..|].
  by apply elem_of_nil in Hold.
Defined.

(** ** Update *)

Lemma next_with_id_absent (item_id : string) (items : list item) :
  (∀ itm, itm ∈ items → itm !! "id" ≠ Some (VStr item_id)) →
  next_with_id item_id items = Ok None ∨
  next_with_id item_id items = Raise KeyError.
Proof.
  induction items as [|itm items IH]; intros Hno; simpl; [by left|].
  unfold getitem. destruct (itm !! "id") as [v|] eqn:Hid; simpl; [|by right].
  destruct (py_eq v (VStr item_id)) eqn:Hv.
  - apply py_eq_str in Hv as ->. by destruct (Hno itm); [left|].
  - destruct IH as [-> | ->]; [|by left|by right].
    intros itm' Hin. apply Hno. by right.
Qed.

Lemma next_with_id_first (item_id : string) (items : list item) :
  Forall is_item items → item_id ∈ ids items →
  ∃ i itm,
    next_with_id item_id items = Ok (Some (i, itm)) ∧
    items !! i = Some itm ∧ itm !! "id" = Some (VStr item_id) ∧
    ∀ j itm', (j < i)%nat → items !! j = Some itm' →
              itm' !! "id" ≠ Some (VStr item_id).
Proof.
  induction 1 as [|itm items Hitm Hitems IH]; simpl.
  - by intros ?%elem_of_nil.
  - intros Hin. unfold getitem. rewrite is_item_id by done. simpl.
    destruct (decide (str_id itm = item_id)) as [<-|Hne].
    + rewrite py_eq_str_refl. exists 0%nat, itm.
      split_and!; [done|done|by apply is_item_id|]. intros; lia.
    + rewrite py_eq_str_ne by done.
      apply elem_of_cons in Hin as [?|Hin]; [congruence|].
      destruct (IH Hin) as (i & itm' & -> & Hi & Hid & Hfirst). simpl.
      exists (S i), itm'. split_and!; [done..|].
      intros [|j] itm'' Hj Hlook; simpl in Hlook.
      * injection Hlook as <-. rewrite is_item_id by done. congruence.
      * apply (Hfirst j); [lia|done].
Qed.

Lemma next_with_id_middle (item_id : string) (l1 l2 : list item) (itm : item) :
  Forall is_item l1 → item_id ∉ ids l1 →
  itm !! "id" = Some (VStr item_id) →
  next_with_id item_id (l1 ++ itm :: l2) = Ok (Some (length l1, itm)).
Proof.
  intros Hitems Hfresh Hid.
  induction Hitems as [|itm' items Hitm' _ IH]; simpl.
  - unfold getitem. rewrite Hid. simpl. by rewrite py_eq_str_refl.
  - unfold ids in Hfresh. rewrite fmap_cons, not_elem_of_cons in Hfresh.
    destruct Hfresh as [Hne Hfresh].
    unfold getitem. rewrite is_item_id by done. simpl.
    rewrite py_eq_str_ne by done. by rewrite IH.
Qed.

(** C6: [async_update] raises [KeyError] (item not found) when no item of
    the list has the id; when an item has it and [info] passes
    [ITEM_UPDATE_SCHEMA], the first such item is returned with the keys of
    [info] written over it and every other key (["id"] and ["index"] among
    them) as it was, the other items of the list staying as they were; when
    an item has it and [info] does not pass, [vol.Invalid] is raised and
    the list stays as it was.  In particular, after [async_add] with a
    fresh id, [async_update] of that id with [{"complete": True}] returns
    the added item with [complete] equal to [True] and the name and the
    type it was added with. *)
Theorem update_item (items : list item) (item_id : string) (info : item) :
  ((∀ itm, itm ∈ items → itm !! "id" ≠ Some (VStr item_id)) →
   async_update item_id info items = (Raise KeyError, items)) ∧
  (Forall is_item items → item_id ∈ ids items →
   ∃ i itm,
     items !! i = Some itm ∧ itm !! "id" = Some (VStr item_id) ∧
     (∀ j itm', (j < i)%nat → items !! j = Some itm' →
                itm' !! "id" ≠ Some (VStr item_id)) ∧
     (¬ valid_fields info →
      async_update item_id info items = (Raise Invalid, items)) ∧
     (valid_fields info →
      ∃ itm',
        async_update item_id info items = (Ok itm', <[i := itm']> items) ∧
        (∀ k v, info !! k = Some v → itm' !! k = Some v) ∧
        (∀ k, info !! k = None → itm' !! k = itm !! k) ∧
        itm' !! "id" = itm !! "id" ∧
        itm' !! "index" = itm !! "index" ∧
        length (<[i := itm']> items) = length items ∧
        (∀ j, j ≠ i → <[i := itm']> items !! j = items !! j))) ∧
  (Forall is_item items → item_id ∉ ids items →
   ∀ name type,
     ∃ added itm',
       async_add item_id name type items = (Ok added, items ++ [added]) ∧
       async_update item_id {[ "complete" := VBool true ]} (items ++ [added]) =
         (Ok itm', items ++ [itm']) ∧
       itm' !! "complete" = Some (VBool true) ∧
       itm' !! "name" = Some name ∧
       itm' !! "type" = Some type ∧
       itm' !! "id" = Some (VStr item_id) ∧
       itm' !! "index" = added !! "index").
Proof.
  split_and!.
  - intros Hno. unfold async_update.
    by destruct (next_with_id_absent item_id items Hno) as [-> | ->].
  - intros Hitems Hin.
    destruct (next_with_id_first item_id items Hitems Hin)
      as (i & itm & Hnext & Hi & Hid & Hfirst).
    exists i, itm. split_and!; [done..| |].
    + intros Hinv. unfold async_update. rewrite Hnext.
      by rewrite schema_invalid.
    + intros Hvalid. exists (dict_update info itm).
      unfold async_update. rewrite Hnext, schema_valid by done.
      split_and!; [done| | | | | |].
      * intros k v Hk. by rewrite dict_update_lookup, Hk.
      * intros k Hk. by rewrite dict_update_lookup, Hk.
      * by rewrite dict_update_lookup, valid_fields_no_id.
      * rewrite dict_update_lookup.
        destruct (info !! "index") as [v|] eqn:Hk; [|done].
        by destruct (valid_fields_keys info "index" v Hvalid Hk)
          as [[? _]|[[? _]|[? _]]].
      * apply length_insert.
      * intros j Hj. by apply list_lookup_insert_ne.
  - intros Hitems Hfresh name type.
    eexists. exists (dict_update {[ "complete" := VBool true ]}
      (async_add_item item_id name type items)).
    split; [reflexivity|].
    set (added := async_add_item item_id name type items).
    assert (added !! "id" = Some (VStr item_id)) as Hid by reflexivity.
    assert (added !! "name" = Some name) as Hname by reflexivity.
    assert (added !! "type" = Some type) as Htype by reflexivity.
    clearbody added.
    unfold async_update. rewrite (next_with_id_middle _ items [] added) by done.
    rewrite schema_valid; last first.
    { intros k v [<- <-]%lookup_singleton_Some. done. }
    split_and!.
    + f_equal. rewrite insert_app_r_alt by lia.
      by rewrite Nat.sub_diag.
    + by rewrite dict_update_lookup, lookup_singleton_eq.
    + by rewrite dict_update_lookup, lookup_singleton_ne.
    + by rewrite dict_update_lookup, lookup_singleton_ne.
    + by rewrite dict_update_lookup, lookup_singleton_ne.
    + by rewrite dict_update_lookup, lookup_singleton_ne.
Qed.

Lemma update_item_witness :
  async_update "x" {[ "complete" := VBool true ]} [item_A; item_B] =
    (Raise KeyError, [item_A; item_B]) ∧
  (∃ i itm',
     async_update "b" {[ "complete" := VBool true ]} [item_A; item_B] =
       (Ok itm', <[i := itm']> [item_A; item_B]) ∧
     itm' !! "complete" = Some (VBool true)) ∧
  (∃ added itm',
     async_add "c" (VStr "Flour") VNone [item_A; item_B] =
       (Ok added, [item_A; item_B] ++ [added]) ∧
     async_update "c" {[ "complete" := VBool true ]} ([item_A; item_B] ++ [added]) =
       (Ok itm', [item_A; item_B] ++ [itm']) ∧
     itm' !! "complete" = Some (VBool true) ∧
     itm' !! "name" = Some (VStr "Flour")).
Proof.
  assert (valid_fields {[ "complete" := VBool true ]}) as Hvalid.
  { intros k v [<- <-]%lookup_singleton_Some. done. }
  assert (Forall is_item [item_A; item_B]) as Hitems by repeat constructor.
  split_and!.
  - apply (update_item [item_A; item_B] "x" {[ "complete" := VBool true ]}).
    intros itm Hin.
    repeat (apply elem_of_cons in Hin as [->|Hin]); [done..|].
    by apply elem_of_nil in Hin.
  - destruct (update_item [item_A; item_B] "b" {[ "complete" := VBool true ]})
      as (_ & Hfound & _).
    destruct Hfound as (i & itm & Hi & Hid & _ & _ & Hupd); [done|by_compute|].
    destruct (Hupd Hvalid) as (itm' & Hrun & Hset & _).
    exists i, itm'. split; [done|by apply Hset].
  - destruct (update_item [item_A; item_B] "c" {[ "complete" := VBool true ]})
      as (_ & _ & Hadded).
    destruct (Hadded Hitems) with (name := VStr "Flour") (type := VNone)
      as (added & itm' & Hadd & Hrun & Hc & Hname & _); [by_compute|].
    by exists added, itm'.
Defined.

(** The example of the specification: two items are added, the first is
    completed and then cleared. *)
Example add_update_clear :
  let s1 := (async_add "a" (VStr "Milk") VNone []).2 in
  let s2 := (async_add "b" (VStr "Eggs") VNone s1).2 in
  let s3 := (async_update "a" {[ "complete" := VBool true ]} s2).2 in
  s3 = [item_A; item_B] ∧ async_clear_completed s3 = (Ok tt, [item_B]).
Proof. split; reflexivity. Qed.

(** ** ClearCompleted *)

Lemma not_completed_filter (items : list item) :
  Forall is_item items →
  not_completed items =
    Ok (filter (λ itm, itm !! "complete" = Some (VBool false)) items).
Proof.
  induction 1 as [|itm items Hitm _ IH]; simpl; [done|].
  unfold getitem. rewrite filter_cons.
  destruct (is_item_complete itm Hitm) as [b Hb]. rewrite Hb, IH. simpl.
  by destruct b.
Qed.

(** C7: [async_clear_completed] succeeds on every list of items; the list
    afterwards holds the items whose [complete] is [False], in the order
    they had, so that the items removed are those whose [complete] is
    [True]; a second call right after the first changes nothing. *)
Theorem clear_completed (items : list item) :
  Forall is_item items →
  ∃ kept,
    async_clear_completed items = (Ok tt, kept) ∧
    kept = filter (λ itm, itm !! "complete" = Some (VBool false)) items ∧
    kept `sublist_of` items ∧
    (∀ itm, itm ∈ items →
            itm ∉ kept ↔ itm !! "complete" = Some (VBool true)) ∧
    async_clear_completed kept = (Ok tt, kept).
Proof.
  intros Hitems. eexists. split_and!; [|reflexivity| | |].
  - unfold async_clear_completed. by rewrite not_completed_filter.
  - apply sublist_filter.
  - intros itm Hin. rewrite list_elem_of_filter.
    eapply Forall_forall in Hitems; [|done].
    destruct (is_item_complete itm Hitems) as [[] Hb]; rewrite Hb.
    + split; [done|]. by intros _ [? _].
    + split; [|done]. intros Hn. by destruct Hn.
  - unfold async_clear_completed. rewrite not_completed_filter.
    + by rewrite list_filter_filter_l.
    + apply Forall_forall. intros itm [_ Hin]%list_elem_of_filter.
      by eapply Forall_forall in Hitems.
Qed.

Lemma clear_completed_witness :
  ∃ kept,
    async_clear_completed [item_A; item_B; item_C] = (Ok tt, kept) ∧
    kept = filter (λ itm, itm !! "complete" = Some (VBool false))
                  [item_A; item_B; item_C] ∧
    kept `sublist_of` [item_A; item_B; item_C] ∧
    (∀ itm, itm ∈ [item_A; item_B; item_C] →
            itm ∉ kept ↔ itm !! "complete" = Some (VBool true)) ∧
    async_clear_completed kept = (Ok tt, kept).
Proof. apply clear_completed. repeat constructor. Defined.

(** ** UpdateAll *)

Lemma dict_update_id (info itm : item) :
  info !! "id" = None → id_of (dict_update info itm) = id_of itm.
Proof. intros Hid. unfold id_of. by rewrite dict_update_lookup, Hid. Qed.

Lemma dict_update_str_id (info itm : item) :
  info !! "id" = None → str_id (dict_update info itm) = str_id itm.
Proof. intros Hid. unfold str_id. by rewrite dict_update_lookup, Hid. Qed.

Lemma dict_update_is_item (info itm : item) :
  valid_fields info → is_item itm → is_item (dict_update info itm).
Proof.
  intros Hvalid Hitm. unfold is_item.
  rewrite !dict_update_lookup, (valid_fields_no_id info Hvalid).
  rewrite (is_item_id itm Hitm).
  destruct (info !! "complete") as [v|] eqn:Hc.
  - destruct (valid_fields_keys info "complete" v Hvalid Hc)
      as [[_ [b ->]]|[[? _]|[? _]]]; done.
  - by destruct (is_item_complete itm Hitm) as [b ->].
Qed.

Lemma update_each_rest (info : item) (rest updated : list item) :
  valid_fields info →
  Forall is_item (updated ++ rest) → NoDup (ids (updated ++ rest)) →
  update_each (ids rest) info ((dict_update info <$> updated) ++ rest) =
    (Ok tt, dict_update info <$> (updated ++ rest)).
Proof.
  intros Hvalid. revert updated.
  induction rest as [|itm rest IH]; intros updated Hitems Hnd; simpl.
  - by rewrite !(right_id_L [] (++)).
  - apply Forall_app in Hitems as [Hupdated Hrest].
    apply Forall_cons in Hrest as [Hitm Hrest].
    assert (ids (dict_update info <$> updated) = ids updated) as Hids.
    { unfold ids. rewrite <-list_fmap_compose. apply list_fmap_ext.
      intros _ x _. simpl. by apply dict_update_str_id, valid_fields_no_id. }
    unfold async_update.
    rewrite (next_with_id_middle (str_id itm)); [| | |by apply is_item_id].
    + rewrite schema_valid by done.
      rewrite insert_app_r_alt by lia. rewrite Nat.sub_diag. simpl.
      specialize (IH (updated ++ [itm])).
      rewrite fmap_app, <-!(assoc_L (++)) in IH. simpl in IH. apply IH.
      * apply Forall_app. split; [done|]. by apply Forall_cons.
      * done.
    + apply Forall_fmap. eapply Forall_impl; [done|].
      intros x Hx. by apply dict_update_is_item.
    + rewrite Hids. unfold ids in Hnd. rewrite fmap_app, fmap_cons in Hnd.
      apply NoDup_app in Hnd as (_ & Hdisj & _).
      intros Hin. apply (Hdisj _ Hin). by left.
Qed.

(** C1, as stated, at a dictionary with a key the schema does not know and
    at one with a value of the wrong type: [async_update] raises
    [vol.Invalid] on both, [async_update_list] raises nothing and writes
    them into the item. *)
Lemma update_list_unvalidated :
  let extra : item := {[ "note" := VStr "x" ]} in
  let wrong : item := {[ "complete" := VStr "yes" ]} in
  ¬ valid_fields extra ∧ ¬ valid_fields wrong ∧
  async_update "b" extra [item_B] = (Raise Invalid, [item_B]) ∧
  async_update "b" wrong [item_B] = (Raise Invalid, [item_B]) ∧
  async_update_list extra [item_B] =
    (Ok [<["note" := VStr "x"]> item_B], [<["note" := VStr "x"]> item_B]) ∧
  async_update_list wrong [item_B] =
    (Ok [<["complete" := VStr "yes"]> item_B],
     [<["complete" := VStr "yes"]> item_B]).
Proof.
  simpl. split_and!; try reflexivity.
  - intros Hvalid. by specialize (Hvalid "note" (VStr "x") eq_refl).
  - intros Hvalid. by specialize (Hvalid "complete" (VStr "yes") eq_refl).
Qed.

(** C1 (amended): [async_update_list] never fails and checks nothing:
    whatever the keys and the values of [info], every item of the list ends
    with the keys of [info] written over it and its other keys as they were.
    When [info] passes [ITEM_UPDATE_SCHEMA] and the list holds items with
    distinct ids, the list afterwards is the one left by [async_update] with
    [info] applied to every item in order. *)
Theorem update_list_items (items : list item) (info : item) :
  ∃ new_items,
    async_update_list info items = (Ok new_items, new_items) ∧
    length new_items = length items ∧
    (∀ i itm, items !! i = Some itm →
       ∃ itm', new_items !! i = Some itm' ∧
               (∀ k v, info !! k = Some v → itm' !! k = Some v) ∧
               (∀ k, info !! k = None → itm' !! k = itm !! k)) ∧
    (valid_fields info → Forall is_item items → distinct_ids items →
     update_each (ids items) info items = (Ok tt, new_items)).
Proof.
  exists (dict_update info <$> items). split_and!.
  - done.
  - apply length_fmap.
  - intros i itm Hi. exists (dict_update info itm). split_and!.
    + by rewrite list_lookup_fmap, Hi.
    + intros k v Hk. by rewrite dict_update_lookup, Hk.
    + intros k Hk. by rewrite dict_update_lookup, Hk.
  - intros Hvalid Hitems Hdist.
    apply (update_each_rest info items [] Hvalid Hitems).
    by apply distinct_ids_NoDup.
Qed.

Lemma update_list_items_witness :
  ∃ new_items,
    async_update_list {[ "complete" := VBool true ]} [item_A; item_B; item_C] =
      (Ok new_items, new_items) ∧
    update_each ["a"; "b"; "c"] {[ "complete" := VBool true ]}
                [item_A; item_B; item_C] = (Ok tt, new_items).
Proof.
  destruct (update_list_items [item_A; item_B; item_C]
              {[ "complete" := VBool true ]})
    as (new_items & Hrun & _ & _ & Heach).
  exists new_items. split; [done|]. apply Heach.
  - intros k v [<- <-]%lookup_singleton_Some. done.
  - repeat constructor.
  - unfold distinct_ids. by_compute.
Defined.

(** ** The ids stay distinct *)

Lemma next_with_id_lookup (item_id : string) (items : list item) (i : nat)
    (itm : item) :
  next_with_id item_id items = Ok (Some (i, itm)) → items !! i = Some itm.
Proof.
  revert i. induction items as [|itm' items IH]; intros i; simpl; [done|].
  unfold getitem. destruct (itm' !! "id") as [v|]; simpl; [|done].
  destruct (py_eq v (VStr item_id)); [by intros [= <- <-]|].
  destruct (next_with_id item_id items) as [[[j itm'']|]|]; simpl; [|done..].
  intros [= <- <-]. by apply IH.
Qed.

Lemma schema_inv (info info' : item) :
  ITEM_UPDATE_SCHEMA info = Ok info' → info' = info ∧ valid_fields info.
Proof.
  intros Hok. destruct (decide (valid_fields info)) as [Hvalid|Hinvalid].
  - rewrite schema_valid in Hok by done. by injection Hok as <-.
  - by rewrite schema_invalid in Hok.
Qed.

Lemma not_completed_sublist (items kept : list item) :
  not_completed items = Ok kept → kept `sublist_of` items.
Proof.
  revert kept. induction items as [|itm items IH]; intros kept; simpl.
  - intros [= <-]. constructor.
  - unfold getitem. destruct (itm !! "complete") as [c|]; simpl; [|done].
    destruct (not_completed items) as [kept'|]; simpl; [|done].
    intros [= <-]. destruct (truthy c).
    + by apply sublist_cons, IH.
    + by apply sublist_skip, IH.
Qed.

Lemma run_keeps_distinct_ids (op : operation) (items : list item) :
  distinct_ids items → respects_ids op items → distinct_ids (run op items).
Proof.
  unfold distinct_ids. intros Hdist Hop.
  destruct op as [uuid4_hex name type|s info| | |info|item_ids]; simpl in *.
  - rewrite fmap_app. apply NoDup_app. split_and!; [done| |apply NoDup_singleton].
    intros x Hx ->%list_elem_of_singleton. by apply Hop.
  - unfold async_update.
    destruct (next_with_id s items) as [[[i itm]|]|] eqn:Hnext; [|done..].
    destruct (ITEM_UPDATE_SCHEMA info) as [info'|] eqn:Hschema; [|done].
    apply schema_inv in Hschema as [-> Hvalid].
    apply next_with_id_lookup in Hnext. simpl.
    rewrite list_fmap_insert, dict_update_id by by apply valid_fields_no_id.
    rewrite list_insert_id; [done|]. by rewrite list_lookup_fmap, Hnext.
  - unfold async_clear_completed.
    destruct (not_completed items) as [kept|] eqn:Hkept; [|done].
    apply not_completed_sublist in Hkept. simpl.
    eapply sublist_NoDup; [done|]. by apply fmap_sublist.
  - done.
  - rewrite <-list_fmap_compose.
    erewrite list_fmap_ext; [done|].
    intros _ x _. simpl. by apply dict_update_id.
  - unfold async_reorder.
    destruct (reordered item_ids items) as [new_items|] eqn:Hrun; [|done].
    apply reordered_submseteq in Hrun. simpl.
    eapply submseteq_NoDup; [|done]. by apply fmap_submseteq.
Qed.

Lemma run_all_keeps_distinct_ids (ops : list operation) (items : list item) :
  distinct_ids items → respects_ids_all ops items →
  distinct_ids (run_all ops items).
Proof.
  revert items. induction ops as [|op ops IH]; intros items Hdist; simpl.
  - done.
  - intros [Hop Hops]. apply IH; [|done]. by apply run_keeps_distinct_ids.
Qed.

Lemma run_all_adds_ids (drawn : list (string * (value * value)))
    (items : list item) :
  id_of <$> run_all (adds drawn) items =
  (id_of <$> items) ++ ((λ d, Some (VStr d.1)) <$> drawn).
Proof.
  revert items. induction drawn as [|d drawn IH]; intros items; simpl.
  - by rewrite (right_id_L [] (++)).
  - rewrite IH, fmap_app, <-(assoc_L (++)). done.
Qed.

Lemma adds_respect_ids (drawn : list (string * (value * value)))
    (items : list item) :
  NoDup ((id_of <$> items) ++ ((λ d, Some (VStr d.1)) <$> drawn)) →
  respects_ids_all (adds drawn) items.
Proof.
  revert items. induction drawn as [|d drawn IH]; intros items; simpl; [done|].
  intros Hnd. split.
  - apply NoDup_app in Hnd as (_ & Hdisj & _).
    intros Hin. apply (Hdisj _ Hin). by left.
  - apply IH. rewrite fmap_app, <-(assoc_L (++)). done.
Qed.

(** C9, as stated, at [UpdateAll] with an ["id"] key: [async_update_list]
    writes the one id over every item. *)
Lemma update_list_overwrites_ids :
  let items := [item_A; item_B] in
  let info : item := {[ "id" := VStr "a" ]} in
  distinct_ids items ∧
  id_of <$> run (UpdateAll info) items = [Some (VStr "a"); Some (VStr "a")] ∧
  ¬ distinct_ids (run (UpdateAll info) items).
Proof.
  simpl. split_and!.
  - unfold distinct_ids. by_compute.
  - reflexivity.
  - unfold distinct_ids. by_compute.
Qed.

(** C9 (amended): when the id drawn by [Add] is the id of no item of the
    list, [Add], [Update], [ClearCompleted], [ListItems], [Reorder], and
    [UpdateAll] with an [info] that has no ["id"] key, each take a list
    whose ids are pairwise distinct to a list whose ids are pairwise
    distinct, whether the call succeeds or fails; so do such calls one after
    the other; and [Add] calls from the empty list, with ids drawn pairwise
    distinct, leave a list whose ids are pairwise distinct. *)
Theorem distinct_ids_invariant (items : list item) :
  distinct_ids items →
  (∀ op, respects_ids op items → distinct_ids (run op items)) ∧
  (∀ ops, respects_ids_all ops items → distinct_ids (run_all ops items)) ∧
  (∀ drawn, NoDup drawn.*1 →
            distinct_ids (run_all (adds drawn) []) ∧
            id_of <$> run_all (adds drawn) [] = Some ∘ VStr <$> drawn.*1).
Proof.
  intros Hdist. split_and!.
  - intros op. by apply run_keeps_distinct_ids.
  - intros ops. by apply run_all_keeps_distinct_ids.
  - intros drawn Hnd.
    assert ((λ d : string * (value * value), Some (VStr d.1)) <$> drawn =
            Some ∘ VStr <$> drawn.*1) as Hids
      by (by rewrite <-list_fmap_compose).
    split.
    + apply run_all_keeps_distinct_ids; [constructor|].
      apply adds_respect_ids. simpl. rewrite Hids.
      apply NoDup_fmap_2; [|done]. by intros x y [=].
    + by rewrite run_all_adds_ids.
Qed.

Lemma distinct_ids_invariant_witness :
  distinct_ids (run (Reorder ["c"; "b"]) [item_A; item_B; item_C]) ∧
  distinct_ids (run_all [Add "d" (VStr "Salt") VNone;
                         UpdateAll {[ "complete" := VBool true ]};
                         Update "d" {[ "name" := VStr "Sugar" ]};
                         ClearCompleted; ListItems]
                        [item_A; item_B; item_C]) ∧
  distinct_ids (run_all (adds [("a", (VStr "Milk", VNone));
                               ("b", (VStr "Eggs", VNone))]) []).
Proof.
  assert (distinct_ids [item_A; item_B; item_C]) as Hdist.
  { unfold distinct_ids. by_compute. }
  destruct (distinct_ids_invariant [item_A; item_B; item_C] Hdist)
    as (Hone & Hall & Hadds).
  split_and!.
  - by apply Hone.
  - apply Hall. simpl. split_and!; [by_compute|done..].
  - apply Hadds. simpl. by_compute.
Defined.

(** ** Reorder: the three outcomes *)

Lemma ids_inj (l : list item) (x y : item) :
  NoDup (ids l) → x ∈ l → y ∈ l → str_id x = str_id y → x = y.
Proof.
  unfold ids. induction l as [|z l IH]; intros Hnd Hx Hy Heq.
  - by apply elem_of_nil in Hx.
  - rewrite fmap_cons in Hnd. apply NoDup_cons in Hnd as [Hz Hnd].
    apply elem_of_cons in Hx as [->|Hx]; apply elem_of_cons in Hy as [->|Hy].
    + done.
    + destruct Hz. rewrite Heq. apply list_elem_of_fmap. eauto.
    + destruct Hz. rewrite <-Heq. apply list_elem_of_fmap. eauto.
    + by apply IH.
Qed.

Lemma same_ids_same_items (l l1 l2 : list item) :
  NoDup (ids l) → l1 ⊆ l → l2 ⊆ l → ids l1 = ids l2 → l1 = l2.
Proof.
  intros Hnd. revert l2.
  induction l1 as [|x l1 IH]; intros [|y l2] H1 H2 Hids; try done.
  unfold ids in Hids. rewrite !fmap_cons in Hids.
  injection Hids as Hxy Hids.
  f_equal.
  - apply (ids_inj l); [done| | |done].
    + apply H1. by left.
    + apply H2. by left.
  - apply IH; [| |done].
    + intros z Hz. apply H1. by right.
    + intros z Hz. apply H2. by right.
Qed.

Lemma not_in_ids (items : list item) (s : string) :
  Forall is_item items →
  s ∉ ids items ↔ ∀ itm, itm ∈ items → itm !! "id" ≠ Some (VStr s).
Proof.
  intros Hitems. unfold ids. split.
  - intros Hnot itm Hin Hid. apply Hnot. apply list_elem_of_fmap.
    exists itm. split; [|done]. unfold str_id. by rewrite Hid.
  - intros Hno (itm & -> & Hin)%list_elem_of_fmap.
    apply (Hno itm Hin). apply is_item_id.
    by eapply Forall_forall in Hitems.
Qed.

Lemma reordered_cases (item_ids : list string) (items : list item) :
  Forall is_item items → distinct_ids items →
  (¬ placeable item_ids items ∧ reordered item_ids items = Raise KeyError) ∨
  (placeable item_ids items ∧
   (∃ itm, itm ∈ items ∧ (str_id itm ∉ item_ids) ∧
           itm !! "complete" = Some (VBool false)) ∧
   reordered item_ids items = Raise Invalid) ∨
  (placeable item_ids items ∧
   (∀ itm, itm ∈ items → str_id itm ∉ item_ids →
           itm !! "complete" = Some (VBool true)) ∧
   ∃ named,
     reordered item_ids items =
       Ok (named ++ filter (λ itm, str_id itm ∉ item_ids) items) ∧
     ids named = item_ids ∧ named ⊆ items).
Proof.
  intros Hitems Hdist. unfold placeable.
  destruct (decide (NoDup item_ids)) as [Hnd|Hdup]; last first.
  { left. split; [by intros [? _]|].
    apply reordered_exn_order. by right. }
  destruct (decide (Forall (λ s, s ∈ ids items) item_ids)) as [Hsub|Hunknown];
    last first.
  { left. apply not_Forall_Exists in Hunknown; [|apply _].
    apply Exists_exists in Hunknown as (s & Hs & Hnot). simpl in Hnot.
    split.
    - intros [_ Hsub]. apply Hnot. by apply Hsub.
    - apply reordered_exn_order. left. exists s. split; [done|].
      by apply not_in_ids. }
  rewrite Forall_forall in Hsub. right.
  destruct (reordered_entries item_ids items) as (named & Hrun & Hids & Hnamed);
    [done..|].
  destruct (decide (Exists (λ itm, (str_id itm ∉ item_ids) ∧
                                   itm !! "complete" = Some (VBool false))
                           items)) as [Hsome|Hnone].
  - left. apply Exists_exists in Hsome as (itm & Hin & Hout & Hc).
    split_and!; [done|done|by exists itm|].
    rewrite Hrun.
    apply (append_rest_unchecked _ _ itm); [|by apply list_elem_of_filter|done].
    apply Forall_forall. intros x [_ Hx]%list_elem_of_filter.
    by eapply Forall_forall in Hitems.
  - right.
    assert (∀ itm, itm ∈ items → str_id itm ∉ item_ids →
                   itm !! "complete" = Some (VBool true)) as Hdone.
    { intros itm Hin Hout.
      eapply Forall_forall in Hitems; [|done].
      destruct (is_item_complete itm Hitems) as [[] Hb]; [done|].
      destruct Hnone. apply Exists_exists. by exists itm. }
    split_and!; [done..|]. exists named. split_and!; [|done..].
    rewrite Hrun. apply append_rest_completed.
    apply Forall_forall. intros x [Hout Hx]%list_elem_of_filter.
    by apply Hdone.
Qed.

(** The outcome of [async_reorder] on a list of items with distinct ids
    is decided by [item_ids]: [KeyError] exactly when an id is given twice
    or is the id of no item; [vol.Invalid] exactly when the ids given are
    ids of the list, none twice, and an item left out has [complete] equal
    to [False]; success exactly when the ids given are ids of the list,
    none twice, and every item left out has [complete] equal to [True].
    The list stays as it was in the two failures. *)
Theorem reorder_outcomes (item_ids : list string) (items : list item) :
  Forall is_item items → distinct_ids items →
  (async_reorder item_ids items = (Raise KeyError, items) ↔
   ¬ NoDup item_ids ∨ ∃ s, s ∈ item_ids ∧ s ∉ ids items) ∧
  (async_reorder item_ids items = (Raise Invalid, items) ↔
   placeable item_ids items ∧
   ∃ itm, itm ∈ items ∧ (str_id itm ∉ item_ids) ∧
          itm !! "complete" = Some (VBool false)) ∧
  ((∃ new_items, async_reorder item_ids items = (Ok tt, new_items)) ↔
   placeable item_ids items ∧
   ∀ itm, itm ∈ items → str_id itm ∉ item_ids →
          itm !! "complete" = Some (VBool true)).
Proof.
  intros Hitems Hdist. unfold async_reorder.
  assert (¬ placeable item_ids items ↔
          ¬ NoDup item_ids ∨ ∃ s, s ∈ item_ids ∧ s ∉ ids items) as Hbad.
  { unfold placeable. split.
    - intros Hnot. destruct (decide (NoDup item_ids)) as [Hnd|]; [|by left].
      right.
      destruct (decide (Forall (λ s, s ∈ ids items) item_ids)) as [Hsub|Hun].
      + destruct Hnot. split; [done|]. intros s Hs.
        by eapply Forall_forall in Hsub.
      + apply not_Forall_Exists in Hun; [|apply _].
        apply Exists_exists in Hun as (s & Hs & Hn). by exists s.
    - intros [Hdup|(s & Hs & Hn)] [Hnd Hsub]; [done|]. by apply Hn, Hsub. }
  destruct (reordered_cases item_ids items Hitems Hdist)
    as [[Hnot ->]|[(Hok & Hsome & ->)|(Hok & Hall & named & -> & _)]].
  - split; [|split].
    + split; [intros _; by apply Hbad|done].
    + split; [done|]. by intros [? _].
    + split; [by intros [? ?]|]. by intros [? _].
  - split; [|split].
    + split; [done|]. intros Hb%Hbad. done.
    + done.
    + split; [by intros [? ?]|]. intros [_ Hall].
      destruct Hsome as (itm & Hin & Hout & Hc).
      specialize (Hall itm Hin Hout). congruence.
  - split; [|split].
    + split; [done|]. intros Hb%Hbad. done.
    + split; [done|]. intros [_ (itm & Hin & Hout & Hc)].
      specialize (Hall itm Hin Hout). congruence.
    + split; [done|]. intros _. eauto.
Qed.

Lemma reorder_outcomes_witness :
  (async_reorder ["b"; "c"; "b"] [item_A; item_B; item_C] =
     (Raise KeyError, [item_A; item_B; item_C]) ↔
   ¬ NoDup ["b"; "c"; "b"] ∨
   ∃ s, s ∈ ["b"; "c"; "b"] ∧ s ∉ ids [item_A; item_B; item_C]) ∧
  ¬ NoDup ["b"; "c"; "b"].
Proof.
  split; [|by_compute].
  apply (reorder_outcomes ["b"; "c"; "b"] [item_A; item_B; item_C]).
  - repeat constructor.
  - unfold distinct_ids. by_compute.
Defined.

Lemma reordered_ok (item_ids : list string) (items new_items : list item) :
  Forall is_item items → distinct_ids items →
  reordered item_ids items = Ok new_items →
  placeable item_ids items ∧
  (∀ itm, itm ∈ items → str_id itm ∉ item_ids →
          itm !! "complete" = Some (VBool true)) ∧
  ∃ named,
    new_items = named ++ filter (λ itm, str_id itm ∉ item_ids) items ∧
    ids named = item_ids ∧ named ⊆ items.
Proof.
  intros Hitems Hdist Hrun.
  destruct (reordered_cases item_ids items Hitems Hdist)
    as [[_ Hr]|[(_ & _ & Hr)|(Hok & Hall & named & Hr & Hids & Hnamed)]];
    rewrite Hr in Hrun; [done..|].
  injection Hrun as <-. split_and!; [done..|]. by exists named.
Qed.

Lemma reordered_Permutation (item_ids : list string) (items new_items : list item) :
  Forall is_item items → distinct_ids items →
  reordered item_ids items = Ok new_items → new_items ≡ₚ items.
Proof.
  intros Hitems Hdist Hrun.
  apply (anti_symm submseteq); [by eapply reordered_submseteq|].
  destruct (reordered_ok _ _ _ Hitems Hdist Hrun)
    as ([Hnd Hsub] & _ & named & -> & Hids & Hnamed).
  pose proof (distinct_ids_NoDup items Hitems Hdist) as Hndi.
  apply NoDup_submseteq; [by eapply NoDup_fmap_1|].
  intros x Hx. apply elem_of_app.
  destruct (decide (str_id x ∈ item_ids)) as [Hin|Hout].
  - left. rewrite <-Hids in Hin.
    apply list_elem_of_fmap in Hin as (y & Heq & Hy).
    by rewrite (ids_inj items x y Hndi Hx (Hnamed y Hy) Heq).
  - right. by apply list_elem_of_filter.
Qed.

(** A successful [async_reorder] never makes up an item and never puts an
    item twice: on every list, the new list is taken from the old one, item
    for item; on a list of items with distinct ids it loses none either,
    the new list is a permutation of the old one and as long. *)
Theorem reorder_keeps_items (item_ids : list string) (items new_items : list item) :
  async_reorder item_ids items = (Ok tt, new_items) →
  new_items ⊆+ items ∧
  (Forall is_item items → distinct_ids items →
   new_items ≡ₚ items ∧ length new_items = length items ∧
   Forall is_item new_items ∧ distinct_ids new_items).
Proof.
  unfold async_reorder.
  destruct (reordered item_ids items) as [l|] eqn:Hrun; [|done].
  intros [= <-]. split; [by eapply reordered_submseteq|].
  intros Hitems Hdist.
  pose proof (reordered_Permutation _ _ _ Hitems Hdist Hrun) as Hperm.
  split_and!; [done|by rewrite Hperm|by rewrite Hperm|].
  unfold distinct_ids. by rewrite Hperm.
Qed.

Lemma reorder_keeps_items_witness :
  [item_C; item_B; item_A] ⊆+ [item_A; item_B; item_C].
Proof.
  by apply (reorder_keeps_items ["c"; "b"] [item_A; item_B; item_C]).
Defined.

Lemma reordered_all_named (item_ids : list string) (items : list item) :
  Forall is_item items → distinct_ids items →
  placeable item_ids items → ids items ⊆ item_ids →
  ∃ named, reordered item_ids items = Ok named ∧
           ids named = item_ids ∧ named ⊆ items.
Proof.
  intros Hitems Hdist Hok Hall.
  destruct (reordered_cases item_ids items Hitems Hdist)
    as [[Hnot _]|[(_ & (itm & Hin & Hout & _) & _)|(_ & _ & named & Hr & Hids & Hn)]].
  - done.
  - destruct Hout. apply Hall. unfold ids. apply list_elem_of_fmap. eauto.
  - exists named. split_and!; [|done..].
    rewrite Hr, filter_keeps_none, (right_id_L [] (++)); [done|].
    intros x Hx Hout. apply Hout, Hall. unfold ids. apply list_elem_of_fmap. eauto.
Qed.

(** On a list of items with distinct ids, [async_reorder] with the ids of
    the list in their present order succeeds and leaves the list as it
    is. *)
Theorem reorder_present_order (items : list item) :
  Forall is_item items → distinct_ids items →
  async_reorder (ids items) items = (Ok tt, items).
Proof.
  intros Hitems Hdist.
  pose proof (distinct_ids_NoDup items Hitems Hdist) as Hnd.
  destruct (reordered_all_named (ids items) items) as (named & Hr & Hids & Hn);
    [done|done|by split|done|].
  unfold async_reorder. rewrite Hr.
  by rewrite (same_ids_same_items items named items Hnd Hn).
Qed.

Lemma reorder_present_order_witness :
  async_reorder (ids [item_A; item_B; item_C]) [item_A; item_B; item_C] =
    (Ok tt, [item_A; item_B; item_C]).
Proof.
  apply reorder_present_order.
  - repeat constructor.
  - unfold distinct_ids. by_compute.
Defined.

(** A successful [async_reorder] on a list of items with distinct ids is
    undone by [async_reorder] with the ids of the list in the order they
    had before. *)
Theorem reorder_undo (item_ids : list string) (items new_items : list item) :
  Forall is_item items → distinct_ids items →
  async_reorder item_ids items = (Ok tt, new_items) →
  async_reorder (ids items) new_items = (Ok tt, items).
Proof.
  intros Hitems Hdist. unfold async_reorder at 1.
  destruct (reordered item_ids items) as [l|] eqn:Hrun; [|done].
  intros [= <-].
  pose proof (reordered_Permutation _ _ _ Hitems Hdist Hrun) as Hperm.
  pose proof (distinct_ids_NoDup items Hitems Hdist) as Hnd.
  destruct (reordered_all_named (ids items) l) as (named & Hr & Hids & Hn).
  - by rewrite Hperm.
  - unfold distinct_ids. by rewrite Hperm.
  - split; [done|]. intros s. unfold ids. by rewrite Hperm.
  - intros s. unfold ids. by rewrite Hperm.
  - unfold async_reorder. rewrite Hr.
    rewrite (same_ids_same_items items named items Hnd); [done| |done|done].
    intros x Hx. rewrite <-Hperm. by apply Hn.
Qed.

Lemma reorder_undo_witness :
  async_reorder (ids [item_A; item_B; item_C]) [item_C; item_B; item_A] =
    (Ok tt, [item_A; item_B; item_C]).
Proof.
  apply (reorder_undo ["c"; "b"]).
  - repeat constructor.
  - unfold distinct_ids. by_compute.
  - reflexivity.
Defined.

(** A successful [async_reorder] on a list of items with distinct ids,
    called again with the same [item_ids], succeeds again and changes
    nothing. *)
Theorem reorder_twice (item_ids : list string) (items new_items : list item) :
  Forall is_item items → distinct_ids items →
  async_reorder item_ids items = (Ok tt, new_items) →
  async_reorder item_ids new_items = (Ok tt, new_items).
Proof.
  intros Hitems Hdist. unfold async_reorder at 1.
  destruct (reordered item_ids items) as [l|] eqn:Hrun; [|done].
  intros [= <-].
  pose proof (reordered_Permutation _ _ _ Hitems Hdist Hrun) as Hperm.
  destruct (reordered_ok _ _ _ Hitems Hdist Hrun)
    as ([Hnd Hsub] & Hall & named & -> & Hids & Hnamed).
  set (rest := filter (λ itm, str_id itm ∉ item_ids) items) in *.
  assert (Forall is_item (named ++ rest)) as Hitems' by by rewrite Hperm.
  assert (distinct_ids (named ++ rest)) as Hdist'.
  { unfold distinct_ids. by rewrite Hperm. }
  unfold async_reorder.
  destruct (reordered_cases item_ids (named ++ rest) Hitems' Hdist')
    as [[Hnot _]|[(_ & (itm & Hin & Hout & Hc) & _)|(_ & _ & named' & -> & Hids' & Hn')]].
  - destruct Hnot. split; [done|]. intros s Hs.
    unfold ids. rewrite fmap_app. apply elem_of_app. left.
    fold (ids named). by rewrite Hids.
  - rewrite Hperm in Hin. specialize (Hall itm Hin Hout). congruence.
  - f_equal. rewrite filter_app. f_equal.
    + apply (same_ids_same_items (named ++ rest)).
      * by apply distinct_ids_NoDup.
      * done.
      * intros x Hx. apply elem_of_app. by left.
      * congruence.
    + rewrite (filter_keeps_none _ named); last first.
      { intros x Hx Hout. apply Hout. rewrite <-Hids.
        unfold ids. apply list_elem_of_fmap. eauto. }
      simpl. unfold rest. by rewrite list_filter_filter_l.
Qed.

Lemma reorder_twice_witness :
  async_reorder ["c"; "b"] [item_C; item_B; item_A] =
    (Ok tt, [item_C; item_B; item_A]).
Proof.
  apply (reorder_twice ["c"; "b"] [item_A; item_B; item_C]).
  - repeat constructor.
  - unfold distinct_ids. by_compute.
  - reflexivity.
Defined.

(** ** ClearCompleted on any list *)

Lemma not_completed_unchecked (items : list item) :
  (∀ itm, itm ∈ items → is_Some (itm !! "complete")) →
  not_completed items = Ok (filter unchecked items).
Proof.
  induction items as [|itm items IH]; intros Hall; simpl; [done|].
  destruct (Hall itm) as [c Hc]; [by left|].
  unfold getitem. rewrite Hc. rewrite IH by (intros x Hx; apply Hall; by right).
  simpl. rewrite filter_cons.
  assert (unchecked itm ↔ truthy c = false) as Hu.
  { unfold unchecked. rewrite Hc. simpl. split; congruence. }
  destruct (truthy c).
  - rewrite decide_False; [done|]. by intros ?%Hu.
  - rewrite decide_True; [done|]. by apply Hu.
Qed.

Lemma not_completed_missing (items : list item) (itm : item) :
  itm ∈ items → itm !! "complete" = None →
  not_completed items = Raise KeyError.
Proof.
  induction items as [|itm' items IH]; intros Hin Hc; simpl.
  - by apply elem_of_nil in Hin.
  - unfold getitem. destruct (itm' !! "complete") as [c|] eqn:Hc'; simpl; [|done].
    apply elem_of_cons in Hin as [->|Hin]; [congruence|].
    by rewrite IH.
Qed.

(** [async_clear_completed] on any list of dictionaries: when an item has
    no ["complete"] key it raises [KeyError] and the list stays as it was;
    otherwise it succeeds and keeps the items whose value under
    ["complete"] is false as a condition ([False], [None], [0], the empty
    string), every kept item is such, and a second call changes nothing. *)
Theorem clear_completed_outcomes (items : list item) :
  ((∃ itm, itm ∈ items ∧ itm !! "complete" = None) →
   async_clear_completed items = (Raise KeyError, items)) ∧
  ((∀ itm, itm ∈ items → is_Some (itm !! "complete")) →
   async_clear_completed items = (Ok tt, filter unchecked items) ∧
   Forall unchecked (filter unchecked items) ∧
   async_clear_completed (filter unchecked items) =
     (Ok tt, filter unchecked items)).
Proof.
  unfold async_clear_completed. split.
  - intros (itm & Hin & Hc). by rewrite (not_completed_missing items itm).
  - intros Hall. rewrite not_completed_unchecked by done.
    split_and!; [done| |].
    + apply Forall_forall. by intros x [? _]%list_elem_of_filter.
    + rewrite not_completed_unchecked.
      * by rewrite list_filter_filter_l.
      * intros x [_ Hx]%list_elem_of_filter. by apply Hall.
Qed.

Lemma clear_completed_outcomes_witness :
  async_clear_completed [item_A; delete "complete" item_B] =
    (Raise KeyError, [item_A; delete "complete" item_B]) ∧
  async_clear_completed [<["complete" := VInt 0]> item_A; item_A; item_B] =
    (Ok tt, filter unchecked [<["complete" := VInt 0]> item_A; item_A; item_B]).
Proof.
  split.
  - apply (clear_completed_outcomes [item_A; delete "complete" item_B]).
    exists (delete "complete" item_B). split; [by_compute|done].
  - apply (clear_completed_outcomes
             [<["complete" := VInt 0]> item_A; item_A; item_B]).
    intros itm Hin.
    repeat (apply elem_of_cons in Hin as [->|Hin]); [by eexists..|].
    by apply elem_of_nil in Hin.
Defined.

(** ** Update on any list *)

Lemma async_update_cases (item_id : string) (info : item) (items : list item) :
  (async_update item_id info items).2 = items ∨
  ∃ i itm, items !! i = Some itm ∧ valid_fields info ∧
           (async_update item_id info items).2 =
             <[i := dict_update info itm]> items.
Proof.
  unfold async_update.
  destruct (next_with_id item_id items) as [[[i itm]|]|] eqn:Hnext; [|by left..].
  destruct (ITEM_UPDATE_SCHEMA info) as [info'|] eqn:Hschema; [|by left].
  apply schema_inv in Hschema as [-> Hvalid].
  apply next_with_id_lookup in Hnext. right. by exists i, itm.
Qed.

(** Whatever the list, the id and [info], and whether it succeeds or
    fails, [async_update] leaves the list as long as it was, changes the
    item at one position at most, and changes no key of any item other than
    ["name"], ["type"] and ["complete"]: the ids, the indexes and any other
    key stay. *)
Theorem update_changes_one (item_id : string) (info : item) (items : list item) :
  let new_items := (async_update item_id info items).2 in
  length new_items = length items ∧
  (∃ i, ∀ j, j ≠ i → new_items !! j = items !! j) ∧
  (∀ j itm, items !! j = Some itm →
     ∃ itm', new_items !! j = Some itm' ∧
             ∀ k, k ≠ "name" → k ≠ "type" → k ≠ "complete" →
                  itm' !! k = itm !! k).
Proof.
  simpl. destruct (async_update_cases item_id info items)
    as [->|(i & itm & Hi & Hvalid & ->)].
  - split_and!; [done|by exists 0%nat|]. intros j itm Hj. by exists itm.
  - split_and!.
    + apply length_insert.
    + exists i. intros j Hj. by apply list_lookup_insert_ne.
    + intros j itm' Hj. destruct (decide (j = i)) as [->|Hne].
      * assert (itm' = itm) as -> by congruence.
        exists (dict_update info itm). split.
        -- apply list_lookup_insert_eq. by eapply lookup_lt_Some.
        -- intros k Hn Ht Hc. rewrite dict_update_lookup.
           destruct (info !! k) as [v|] eqn:Hk; [|done].
           destruct (valid_fields_keys info k v Hvalid Hk)
             as [[? _]|[[? _]|[? _]]]; done.
      * exists itm'. split; [|done]. by rewrite list_lookup_insert_ne.
Qed.

(** ** The stored items stay well formed *)

Lemma stored_item_inv (itm : item) :
  stored_item itm ↔
  dom itm = ({[ "name"; "type"; "id"; "complete"; "index" ]} : gset string) ∧
  (∃ s, itm !! "id" = Some (VStr s)) ∧
  (∃ b, itm !! "complete" = Some (VBool b)) ∧
  (∃ z, itm !! "index" = Some (VInt z)).
Proof.
  unfold stored_item. rewrite andb_True, bool_decide_spec.
  destruct (itm !! "id") as [[]|]; simpl;
    try (split; [by intros [_ []] | by intros (_ & [? [=]] & _)]).
  destruct (itm !! "complete") as [[]|]; simpl;
    try (split; [by intros [_ []] | by intros (_ & _ & [? [=]] & _)]).
  destruct (itm !! "index") as [[]|]; simpl;
    try (split; [by intros [_ []] | by intros (_ & _ & _ & [? [=]])]).
  split; [|by intros [? _]]. intros [? _]. eauto 10.
Qed.

Lemma stored_item_is_item (itm : item) : stored_item itm → is_item itm.
Proof.
  intros (_ & [s Hid] & [b Hc] & _)%stored_item_inv.
  unfold is_item. by rewrite Hid, Hc.
Qed.

Lemma valid_fields_dom (info : item) :
  valid_fields info → dom info ⊆ ({[ "name"; "type"; "complete" ]} : gset string).
Proof.
  intros Hvalid k [v Hk]%elem_of_dom.
  destruct (valid_fields_keys info k v Hvalid Hk)
    as [[-> _]|[[-> _]|[-> _]]];
    rewrite !elem_of_union, !elem_of_singleton; tauto.
Qed.

Lemma dict_update_stored (info itm : item) :
  valid_fields info → stored_item itm → stored_item (dict_update info itm).
Proof.
  intros Hvalid (Hdom & [s Hid] & [b Hc] & [z Hindex])%stored_item_inv.
  apply stored_item_inv. split_and!.
  - unfold dict_update. rewrite dom_union_L, Hdom.
    apply subseteq_union_1_L. etrans; [by apply valid_fields_dom|].
    by_compute.
  - exists s. by rewrite dict_update_lookup, valid_fields_no_id.
  - rewrite dict_update_lookup.
    destruct (info !! "complete") as [v|] eqn:Hk; [|by eauto].
    destruct (valid_fields_keys info "complete" v Hvalid Hk)
      as [[_ [b' ->]]|[[? _]|[? _]]]; [by eauto|done..].
  - exists z. rewrite dict_update_lookup.
    destruct (info !! "index") as [v|] eqn:Hk; [|done].
    by destruct (valid_fields_keys info "index" v Hvalid Hk)
      as [[? _]|[[? _]|[? _]]].
Qed.

Lemma run_keeps_stored (op : operation) (items : list item) :
  Forall stored_item items → checked op → Forall stored_item (run op items).
Proof.
  intros Hitems Hop.
  destruct op as [uuid4_hex name type|s info| | |info|item_ids]; simpl in *.
  - apply Forall_app. split; [done|]. apply Forall_singleton.
    apply stored_item_inv. split_and!; [reflexivity|by eexists..].
  - destruct (async_update_cases s info items)
      as [->|(i & itm & Hi & Hvalid & ->)]; [done|].
    apply Forall_insert; [done|]. apply dict_update_stored; [done|].
    eapply Forall_forall in Hitems; [done|]. by eapply list_elem_of_lookup_2.
  - unfold async_clear_completed.
    destruct (not_completed items) as [kept|] eqn:Hkept; [|done].
    apply not_completed_sublist in Hkept. simpl.
    apply Forall_forall. intros x Hx.
    eapply Forall_forall in Hitems; [done|]. by eapply elem_of_sublist.
  - done.
  - apply Forall_fmap. eapply Forall_impl; [done|].
    intros x Hx. by apply dict_update_stored.
  - unfold async_reorder.
    destruct (reordered item_ids items) as [new_items|] eqn:Hrun; [|done].
    apply reordered_submseteq in Hrun. simpl.
    apply Forall_forall. intros x Hx.
    eapply Forall_forall in Hitems; [done|]. by eapply elem_of_submseteq.
Qed.

(** Calls one after the other keep the list well formed: when every item
    has the five keys of [async_add] and no other, with a string id, a
    boolean [complete] and an integer index, and the ids are pairwise
    distinct, the same holds after any number of calls of [async_add] (each
    with an id that is the id of no item then), [async_update],
    [async_clear_completed], [async_list_items], [async_reorder], and
    [async_update_list] with an [info] the update schema accepts, whatever
    their other arguments and whether they succeed or fail.  It holds in
    particular of every list reached from the empty list. *)
Theorem stored_items_invariant (ops : list operation) (items : list item) :
  Forall stored_item items → distinct_ids items →
  Forall checked ops → respects_ids_all ops items →
  Forall stored_item (run_all ops items) ∧
  Forall is_item (run_all ops items) ∧
  distinct_ids (run_all ops items).
Proof.
  revert items. induction ops as [|op ops IH]; intros items Hitems Hdist Hc Hr.
  - simpl. split_and!; [done| |done].
    eapply Forall_impl; [done|]. apply stored_item_is_item.
  - simpl in *. apply Forall_cons in Hc as [Hop Hc]. destruct Hr as [Hr Hrs].
    apply IH; [|by apply run_keeps_distinct_ids|done..].
    by apply run_keeps_stored.
Qed.

Lemma stored_items_invariant_witness :
  Forall stored_item
    (run_all [Add "a" (VStr "Milk") VNone; Add "b" VNone (VStr "food");
              Update "a" {[ "complete" := VBool true ]};
              Reorder ["b"]; UpdateAll {[ "type" := VStr "food" ]};
              ClearCompleted; ListItems] []).
Proof.
  apply stored_items_invariant.
  - constructor.
  - constructor.
  - repeat constructor.
    intros k v [<- <-]%lookup_singleton_Some. done.
  - simpl. split_and!; [by_compute|by_compute|done..].
Defined.

(** ** The index of an added item *)

Lemma run_all_adds_lookup (drawn : list (string * (value * value)))
    (items : list item) :
  ∃ added,
    run_all (adds drawn) items = items ++ added ∧
    length added = length drawn ∧
    ∀ i itm, added !! i = Some itm →
      itm !! "index" = Some (VInt (Z.of_nat (length items + i))) ∧
      ∃ d, drawn !! i = Some d ∧
           itm !! "id" = Some (VStr d.1) ∧
           itm !! "name" = Some d.2.1 ∧
           itm !! "type" = Some d.2.2 ∧
           itm !! "complete" = Some (VBool false).
Proof.
  revert items. induction drawn as [|d drawn IH]; intros items.
  - exists []. simpl. rewrite (right_id_L [] (++)).
    split_and!; [done..|]. intros i itm Hi. by rewrite lookup_nil in Hi.
  - simpl.
    destruct (IH (items ++ [async_add_item d.1 d.2.1 d.2.2 items]))
      as (added & -> & Hlen & Hadded).
    exists (async_add_item d.1 d.2.1 d.2.2 items :: added).
    split_and!.
    + by rewrite <-(assoc_L (++)).
    + simpl. by rewrite Hlen.
    + intros [|i] itm Hi; simpl in Hi.
      * injection Hi as <-. split.
        -- by rewrite Nat.add_0_r.
        -- exists d. by split_and!.
      * destruct (Hadded i itm Hi) as [Hindex Hd]. split; [|done].
        rewrite Hindex. rewrite length_app. simpl.
        do 3 f_equal. lia.
Qed.

(** After [async_add] calls alone, from the empty list, the item at
    position [i] has index [i] and is the [i]-th item added, with the name,
    the type and the id it was added with and [complete] equal to [False];
    the list is as long as the number of calls. *)
Theorem index_after_adds (drawn : list (string * (value * value))) :
  length (run_all (adds drawn) []) = length drawn ∧
  ∀ i itm, run_all (adds drawn) [] !! i = Some itm →
    itm !! "index" = Some (VInt (Z.of_nat i)) ∧
    ∃ d, drawn !! i = Some d ∧
         itm !! "id" = Some (VStr d.1) ∧
         itm !! "name" = Some d.2.1 ∧
         itm !! "type" = Some d.2.2 ∧
         itm !! "complete" = Some (VBool false).
Proof.
  destruct (run_all_adds_lookup drawn []) as (added & -> & Hlen & Hadded).
  simpl. split; [done|]. intros i itm Hi. by apply Hadded.
Qed.

(** The index is not kept up: once an item before it is cleared, the
    index of an item is no longer its position. *)
Example index_after_clear :
  let items := run_all [Add "a" (VStr "Milk") VNone; Add "b" (VStr "Eggs") VNone;
                        Update "a" {[ "complete" := VBool true ]};
                        ClearCompleted] [] in
  ∃ itm, items = [itm] ∧ itm !! "index" = Some (VInt 1).
Proof. eexists. split; reflexivity. Qed.

(** ** The services on the whole list *)

Lemma dict_update_singleton (k : string) (v : value) (itm : item) :
  dict_update {[ k := v ]} itm = <[k := v]> itm.
Proof. unfold dict_update. by rewrite insert_union_singleton_l. Qed.

Lemma not_completed_marked (b : bool) (items : list item) :
  not_completed (<["complete" := VBool b]> <$> items) =
  Ok (if b then [] else <["complete" := VBool b]> <$> items).
Proof.
  induction items as [|itm items IH]; [by destruct b|].
  rewrite fmap_cons. simpl. unfold getitem.
  rewrite lookup_insert_eq, IH. by destruct b.
Qed.

(** [complete_all_service] and [incomplete_all_service] succeed on every
    list and write the flag into every item.  After
    [complete_all_service], [clear_complete_service] leaves the empty list;
    after [incomplete_all_service] it removes nothing; and of the two
    services the one called last decides. *)
Theorem mark_all_services (items : list item) :
  complete_all_service items =
    (Ok tt, <["complete" := VBool true]> <$> items) ∧
  incomplete_all_service items =
    (Ok tt, <["complete" := VBool false]> <$> items) ∧
  clear_complete_service (complete_all_service items).2 = (Ok tt, []) ∧
  clear_complete_service (incomplete_all_service items).2 =
    (Ok tt, (incomplete_all_service items).2) ∧
  complete_all_service (incomplete_all_service items).2 =
    complete_all_service items ∧
  incomplete_all_service (complete_all_service items).2 =
    incomplete_all_service items.
Proof.
  unfold complete_all_service, incomplete_all_service, clear_complete_service,
    async_update_list, async_clear_completed. simpl.
  assert (∀ b, dict_update {[ "complete" := VBool b ]} <$> items =
               <["complete" := VBool b]> <$> items) as Heq.
  { intros b. apply list_fmap_ext. intros _ x _. apply dict_update_singleton. }
  rewrite !Heq. split_and!; [done|done| | | |].
  - by rewrite (not_completed_marked true).
  - by rewrite (not_completed_marked false).
  - f_equal. rewrite <-list_fmap_compose. apply list_fmap_ext.
    intros _ x _. simpl. by rewrite dict_update_singleton, insert_insert_eq.
  - f_equal. rewrite <-list_fmap_compose. apply list_fmap_ext.
    intros _ x _. simpl. by rewrite dict_update_singleton, insert_insert_eq.
Qed.

(** ** The services keyed by the name *)

Lemma next_with_id_value_str (s : string) (items : list item) :
  next_with_id_value (VStr s) items = next_with_id s items.
Proof.
  induction items as [|itm items IH]; simpl; [done|]. by rewrite IH.
Qed.

Lemma async_update_value_str (s : string) (info : item) (items : list item) :
  async_update_value (VStr s) info items = async_update s info items.
Proof.
  unfold async_update_value, async_update. by rewrite next_with_id_value_str.
Qed.

Lemma items_named_filter (n : string) (items : list item) :
  (∀ itm, itm ∈ items → is_Some (itm !! "name")) →
  items_named (VStr n) items =
    Ok (filter (λ itm, itm !! "name" = Some (VStr n)) items).
Proof.
  induction items as [|itm items IH]; intros Hall; simpl; [done|].
  destruct (Hall itm) as [v Hv]; [by left|].
  unfold getitem. rewrite Hv, IH by (intros x Hx; apply Hall; by right).
  simpl. rewrite filter_cons, Hv.
  destruct (py_eq v (VStr n)) eqn:Heq.
  - apply py_eq_str in Heq as ->. by rewrite decide_True.
  - rewrite decide_False; [done|]. intros [= ->].
    by rewrite py_eq_str_refl in Heq.
Qed.

Lemma filter_head {X} (P : X → Prop) `{!∀ x, Decision (P x)}
    (l rest : list X) (x : X) :
  filter P l = x :: rest →
  ∃ i, l !! i = Some x ∧ P x ∧ ∀ j y, (j < i)%nat → l !! j = Some y → ¬ P y.
Proof.
  induction l as [|z l IH]; [done|]. rewrite filter_cons.
  destruct (decide (P z)) as [Hz|Hz].
  - intros [= -> _]. exists 0%nat. split_and!; [done..|]. intros; lia.
  - intros (i & Hi & Hx & Hfirst)%IH. exists (S i). split_and!; [done..|].
    intros [|j] y Hj Hy; simpl in Hy.
    + by injection Hy as <-.
    + apply (Hfirst j); [lia|done].
Qed.

Lemma next_with_id_at (items : list item) (i : nat) (itm : item) :
  Forall is_item items → distinct_ids items → items !! i = Some itm →
  next_with_id (str_id itm) items = Ok (Some (i, itm)).
Proof.
  intros Hitems Hdist Hi.
  pose proof (distinct_ids_NoDup items Hitems Hdist) as Hnd.
  destruct (next_with_id_first (str_id itm) items Hitems)
    as (i' & itm' & -> & Hi' & Hid' & _).
  { unfold ids. apply list_elem_of_fmap. exists itm. split; [done|].
    by eapply list_elem_of_lookup_2. }
  assert (str_id itm' = str_id itm) as Heq.
  { unfold str_id at 1. by rewrite Hid'. }
  assert (i' = i) as ->.
  { apply (NoDup_lookup (ids items) i' i (str_id itm)); [done|..];
      unfold ids; rewrite list_lookup_fmap; [by rewrite Hi', <-Heq|by rewrite Hi]. }
  by assert (itm' = itm) as -> by congruence.
Qed.

Lemma mark_info_valid (n : string) (ty : value) (c : bool) :
  valid_fields {[ "name" := VStr n; "type" := ty; "complete" := VBool c ]} ↔
  ∃ t, ty = VStr t.
Proof.
  unfold valid_fields. split.
  - intros Hvalid.
    assert (Is_true (schema_field "type" ty)) as Hty.
    { apply (Hvalid "type"). by rewrite lookup_insert_ne, lookup_insert_eq. }
    destruct ty; try done. eauto.
  - intros [t ->] k v Hk.
    apply lookup_insert_Some in Hk as [[<- <-]|[_ Hk]]; [done|].
    apply lookup_insert_Some in Hk as [[<- <-]|[_ Hk]]; [done|].
    by apply lookup_singleton_Some in Hk as [<- <-].
Qed.

Lemma mark_named_item (c : bool) (n : string) (ty : value) (items : list item) :
  Forall stored_item items → distinct_ids items →
  (∃ itm, itm ∈ items ∧ itm !! "name" = Some (VStr n)) →
  ∃ i itm,
    items !! i = Some itm ∧ itm !! "name" = Some (VStr n) ∧
    (∀ j itm', (j < i)%nat → items !! j = Some itm' →
               itm' !! "name" ≠ Some (VStr n)) ∧
    mark_item_service c {[ "name" := VStr n; "type" := ty ]} items =
      match ty with
      | VStr t =>
          (Ok tt, <[i := <["complete" := VBool c]> (<["type" := VStr t]> itm)]> items)
      | _ => (Raise Invalid, items)
      end.
Proof.
  intros Hstored Hdist (itm0 & Hin0 & Hname0).
  assert (Forall is_item items) as Hitems.
  { eapply Forall_impl; [done|]. apply stored_item_is_item. }
  assert (∀ itm, itm ∈ items → is_Some (itm !! "name")) as Hnames.
  { intros itm Hin. eapply Forall_forall in Hstored; [|done].
    apply stored_item_inv in Hstored as [Hdom _].
    apply elem_of_dom. rewrite Hdom. by_compute. }
  destruct (filter (λ itm, itm !! "name" = Some (VStr n)) items)
    as [|itm found] eqn:Hfilter.
  { assert (itm0 ∈ filter (λ itm, itm !! "name" = Some (VStr n)) items) as Hin
      by by apply list_elem_of_filter.
    rewrite Hfilter in Hin. by apply elem_of_nil in Hin. }
  destruct (filter_head _ _ _ _ Hfilter) as (i & Hi & Hname & Hfirst).
  exists i, itm. split_and!; [done..|].
  unfold mark_item_service, dict_get_or_None, ATTR_NAME, ATTR_TYPE.
  rewrite lookup_insert_eq, lookup_insert_ne, lookup_singleton_eq by done.
  simpl. rewrite items_named_filter, Hfilter by done.
  assert (is_item itm) as Hitm.
  { eapply Forall_forall in Hitems; [done|]. by eapply list_elem_of_lookup_2. }
  unfold getitem. rewrite (is_item_id itm Hitm).
  rewrite async_update_value_str. unfold async_update.
  rewrite (next_with_id_at items i itm) by done.
  destruct ty as [| | |t];
    try (rewrite schema_invalid; [done|]; by intros [? [=]]%mark_info_valid).
  rewrite schema_valid by (apply mark_info_valid; eauto). do 2 f_equal.
  apply map_eq. intros k. rewrite dict_update_lookup.
  destruct (decide (k = "complete")) as [->|Hc];
    [by rewrite lookup_insert_eq|].
  destruct (decide (k = "type")) as [->|Ht];
    [by rewrite (lookup_insert_ne _ "complete"), !lookup_insert_eq|].
  destruct (decide (k = "name")) as [->|Hn].
  - by rewrite !lookup_insert_eq, !lookup_insert_ne, Hname.
  - by rewrite !lookup_insert_ne, lookup_singleton_ne.
Qed.

(** [complete_item_service] and [incomplete_item_service], called with a
    name, on a list of stored items with distinct ids.  When no item has
    the name, nothing happens and nothing is raised.  When an item has it,
    the first such item is the one updated, and the update goes through
    only if the call holds a string under ["type"]: the flag and that type
    are then written into the item; when ["type"] is left out of the call
    (or holds [None]), [vol.Invalid] is raised and the list stays as it
    was, the flag is not written. *)
Theorem mark_item_by_name (c : bool) (n : string) (items : list item) :
  Forall stored_item items → distinct_ids items →
  ((∀ itm, itm ∈ items → itm !! "name" ≠ Some (VStr n)) →
   ∀ data, data !! "name" = Some (VStr n) →
           mark_item_service c data items = (Ok tt, items)) ∧
  ((∃ itm, itm ∈ items ∧ itm !! "name" = Some (VStr n)) →
   ∃ i itm,
     items !! i = Some itm ∧ itm !! "name" = Some (VStr n) ∧
     (∀ j itm', (j < i)%nat → items !! j = Some itm' →
                itm' !! "name" ≠ Some (VStr n)) ∧
     (∀ t, mark_item_service c {[ "name" := VStr n; "type" := VStr t ]} items =
           (Ok tt, <[i := <["complete" := VBool c]> (<["type" := VStr t]> itm)]>
                     items)) ∧
     mark_item_service c {[ "name" := VStr n ]} items = (Raise Invalid, items) ∧
     mark_item_service c {[ "name" := VStr n; "type" := VNone ]} items =
       (Raise Invalid, items)).
Proof.
  intros Hstored Hdist. split.
  - intros Hno data Hdata.
    unfold mark_item_service, dict_get_or_None, ATTR_NAME. rewrite Hdata. simpl.
    rewrite items_named_filter; last first.
    { intros itm Hin. eapply Forall_forall in Hstored; [|done].
      apply stored_item_inv in Hstored as [Hdom _].
      apply elem_of_dom. rewrite Hdom. by_compute. }
    by rewrite filter_keeps_none.
  - intros Hsome.
    destruct (mark_named_item c n VNone items Hstored Hdist Hsome)
      as (i & itm & Hi & Hname & Hfirst & HNone).
    exists i, itm. split_and!; [done..| | |done].
    + intros t.
      destruct (mark_named_item c n (VStr t) items Hstored Hdist Hsome)
        as (i' & itm' & Hi' & Hname' & Hfirst' & Hrun).
      assert (i' = i) as ->.
      { destruct (Nat.lt_trichotomy i' i) as [Hlt|[->|Hlt]]; [|done|].
        - by destruct (Hfirst i' itm' Hlt Hi').
        - by destruct (Hfirst' i itm Hlt Hi). }
      by assert (itm' = itm) as -> by congruence.
    + rewrite <-HNone.
      unfold mark_item_service, dict_get_or_None, ATTR_NAME, ATTR_TYPE.
      by rewrite !lookup_insert_eq, lookup_singleton_eq, lookup_singleton_ne,
        lookup_insert_ne, lookup_singleton_eq.
Qed.

Lemma mark_item_by_name_witness :
  complete_item_service {[ "name" := VStr "Eggs" ]} [item_A; item_B; item_C] =
    (Raise Invalid, [item_A; item_B; item_C]) ∧
  complete_item_service {[ "name" := VStr "Salt" ]} [item_A; item_B; item_C] =
    (Ok tt, [item_A; item_B; item_C]).
Proof.
  assert (Forall stored_item [item_A; item_B; item_C]) as Hstored
    by repeat constructor.
  assert (distinct_ids [item_A; item_B; item_C]) as Hdist.
  { unfold distinct_ids. by_compute. }
  destruct (mark_item_by_name true "Eggs" [item_A; item_B; item_C] Hstored Hdist)
    as [_ Hfound].
  destruct (mark_item_by_name true "Salt" [item_A; item_B; item_C] Hstored Hdist)
    as [Habsent _].
  split.
  - destruct Hfound as (i & itm & _ & _ & _ & _ & Hrun & _); [|done].
    exists item_B. split; [by_compute|done].
  - apply Habsent; [|done]. intros itm Hin.
    repeat (apply elem_of_cons in Hin as [->|Hin]); [done..|].
    by apply elem_of_nil in Hin.
Defined.

(** [add_item_service] without a name (or with [None] for the name) does
    nothing.  With a name, on a list of stored items with distinct ids in
    which no item has that name, and an id drawn that no item has, it puts
    a new item at the end, and [complete_item_service] called next with the
    same name and a string type marks that new item and no other. *)
Theorem add_then_complete_by_name (uuid4_hex n : string) (items : list item) :
  (∀ data, dict_get_or_None data "name" = VNone →
           add_item_service uuid4_hex data items = (Ok tt, items)) ∧
  (Forall stored_item items → distinct_ids items →
   uuid4_hex ∉ ids items →
   (∀ itm, itm ∈ items → itm !! "name" ≠ Some (VStr n)) →
   ∃ added,
     add_item_service uuid4_hex {[ "name" := VStr n ]} items =
       (Ok tt, items ++ [added]) ∧
     added !! "name" = Some (VStr n) ∧
     added !! "type" = Some VNone ∧
     added !! "complete" = Some (VBool false) ∧
     ∀ t, complete_item_service {[ "name" := VStr n; "type" := VStr t ]}
                                (items ++ [added]) =
          (Ok tt, items ++ [<["complete" := VBool true]>
                              (<["type" := VStr t]> added)])).
Proof.
  split.
  - intros data Hname. unfold add_item_service, ATTR_NAME. by rewrite Hname.
  - intros Hstored Hdist Hfresh Hno.
    exists (async_add_item uuid4_hex (VStr n) VNone items).
    set (added := async_add_item uuid4_hex (VStr n) VNone items).
    assert (added !! "name" = Some (VStr n)) as Hname by reflexivity.
    assert (stored_item added) as Hadded.
    { apply stored_item_inv. split_and!; [reflexivity|by eexists..]. }
    assert (id_of added = Some (VStr uuid4_hex)) as Hid by reflexivity.
    split_and!; [reflexivity..|].
    clearbody added. intros t.
    assert (Forall stored_item (items ++ [added])) as Hstored'.
    { apply Forall_app. split; [done|]. by apply Forall_singleton. }
    assert (distinct_ids (items ++ [added])) as Hdist'.
    { unfold distinct_ids. rewrite fmap_app. apply NoDup_app.
      split_and!; [done| |apply NoDup_singleton].
      intros x Hx ->%list_elem_of_singleton. rewrite Hid in Hx.
      apply list_elem_of_fmap in Hx as (itm & Heq & Hin).
      apply Hfresh. unfold ids. apply list_elem_of_fmap. exists itm.
      split; [|done]. unfold str_id. unfold id_of in Heq. by rewrite <-Heq. }
    destruct (mark_named_item true n (VStr t) (items ++ [added]) Hstored' Hdist')
      as (i & itm & Hi & Hitm & _ & Hrun).
    { exists added. split; [|done]. apply elem_of_app. right. by left. }
    unfold complete_item_service. rewrite Hrun. f_equal.
    destruct (decide (i < length items)%nat) as [Hlt|Hge].
    + rewrite lookup_app_l in Hi by done.
      destruct (Hno itm); [by eapply list_elem_of_lookup_2|done].
    + apply lookup_lt_Some in Hi as Hlen. rewrite length_app in Hlen.
      simpl in Hlen. assert (i = length items) as -> by lia.
      rewrite list_lookup_middle in Hi by done. injection Hi as <-.
      rewrite insert_app_r_alt by lia. by rewrite Nat.sub_diag.
Qed.

Lemma add_then_complete_by_name_witness :
  ∃ added,
    add_item_service "d" {[ "name" := VStr "Salt" ]} [item_A; item_B] =
      (Ok tt, [item_A; item_B] ++ [added]) ∧
    complete_item_service {[ "name" := VStr "Salt"; "type" := VStr "food" ]}
                          ([item_A; item_B] ++ [added]) =
      (Ok tt, [item_A; item_B] ++
              [<["complete" := VBool true]> (<["type" := VStr "food"]> added)]).
Proof.
  destruct (add_then_complete_by_name "d" "Salt" [item_A; item_B])
    as [_ Hadd].
  destruct Hadd as (added & Hrun & _ & _ & _ & Hmark).
  - repeat constructor.
  - unfold distinct_ids. by_compute.
  - by_compute.
  - intros itm Hin.
    repeat (apply elem_of_cons in Hin as [->|Hin]); [done..|].
    by apply elem_of_nil in Hin.
  - exists added. split; [done|]. apply Hmark.
Defined.

(** ** The views *)



Lemma create_schema_inv (data data' : item) :
  CREATE_ITEM_SCHEMA data = Ok data' →
  data' = data ∧ ∃ n, data = {[ "name" := VStr n ]}.
Proof.
  unfold CREATE_ITEM_SCHEMA.
  destruct (forallb _ _ && _) eqn:Hok; [|done]. intros [= <-]. split; [done|].
  apply andb_true_iff in Hok as [Hall Hname].
  apply bool_decide_eq_true in Hname as [v Hv].
  rewrite forallb_forall in Hall.
  assert (∀ k w, data !! k = Some w → k = "name" ∧ ∃ n, w = VStr n) as Hkeys.
  { intros k w Hk. specialize (Hall (k, w)). simpl in Hall.
    rewrite andb_true_iff, bool_decide_eq_true in Hall.
    destruct Hall as [-> Hw]; [by apply list_elem_of_In, elem_of_map_to_list|].
    split; [done|]. destruct w; try done. eauto. }
  destruct (Hkeys "name" v Hv) as [_ [n ->]]. exists n.
  apply map_eq. intros k. destruct (decide (k = "name")) as [->|Hne].
  - by rewrite lookup_singleton_eq.
  - rewrite lookup_singleton_ne by done.
    destruct (data !! k) as [w|] eqn:Hk; [|done].
    by destruct (Hkeys k w Hk).
Qed.

(** [CreateCheckListItemView.post] adds nothing: a body that passes the
    schema of its validator holds the key ["name"] and no other, and the
    view then raises [KeyError] on [data["type"]] before [async_add] is
    called; the list stays as it was. *)
Theorem create_view_adds_nothing (uuid4_hex : string) (data data' : item)
    (items : list item) :
  CREATE_ITEM_SCHEMA data = Ok data' →
  data' !! "type" = None ∧
  CreateCheckListItemView_post uuid4_hex data' items = (Raise KeyError, items).
Proof.
  intros [-> [n ->]]%create_schema_inv. by split.
Qed.

Lemma create_view_adds_nothing_witness :
  CreateCheckListItemView_post "d" {[ "name" := VStr "Salt" ]} [item_A] =
    (Raise KeyError, [item_A]).
Proof.
  by apply (create_view_adds_nothing "d" {[ "name" := VStr "Salt" ]}).
Defined.

(** A body with a ["type"] key, which the view needs, does not pass the
    schema of its validator. *)
Example create_schema_refuses_type :
  CREATE_ITEM_SCHEMA {[ "name" := VStr "Salt"; "type" := VStr "food" ]} =
    Raise Invalid.
Proof. reflexivity. Qed.

(** ** The websocket commands *)

(** [websocket_handle_add] gives [msg["type"]] to [async_add] as the type
    of the item: for a message of the command, whose ["type"] is the name
    of the command, the item added has ["check_list/items/add"] for its
    type, whatever the list. *)
Theorem websocket_add_type (uuid4_hex : string) (msg : item) (id name : value)
    (items : list item) :
  msg !! "id" = Some id → msg !! "name" = Some name →
  msg !! "type" = Some (VStr WS_TYPE_SHOPPING_LIST_ADD_ITEM) →
  ∃ itm,
    websocket_handle_add uuid4_hex msg items =
      (Ok (result_message id (result_item itm)), items ++ [itm]) ∧
    itm !! "type" = Some (VStr "check_list/items/add") ∧
    itm !! "name" = Some name ∧
    itm !! "id" = Some (VStr uuid4_hex) ∧
    itm !! "complete" = Some (VBool false).
Proof.
  intros Hid Hname Htype. eexists.
  unfold websocket_handle_add, getitem. rewrite Hid, Hname, Htype. simpl.
  split_and!; reflexivity.
Qed.

Lemma websocket_add_type_witness :
  ∃ itm,
    websocket_handle_add "d"
      {[ "id" := VInt 7; "type" := VStr "check_list/items/add";
         "name" := VStr "Salt" ]} [item_A] =
      (Ok (result_message (VInt 7) (result_item itm)), [item_A] ++ [itm]) ∧
    itm !! "type" = Some (VStr "check_list/items/add").
Proof.
  destruct (websocket_add_type "d"
              {[ "id" := VInt 7; "type" := VStr "check_list/items/add";
                 "name" := VStr "Salt" ]} (VInt 7) (VStr "Salt") [item_A])
    as (itm & Hrun & Htype & _); [done..|].
  by exists itm.
Defined.

Lemma next_with_id_exn (s : string) (items : list item) (e : exn) :
  next_with_id s items = Raise e → e = KeyError.
Proof.
  induction items as [|x l IH]; simpl; [done|].
  unfold getitem. destruct (x !! "id") as [v|]; simpl; [|congruence].
  destruct (py_eq v (VStr s)); [done|].
  destruct (next_with_id s l) as [[[]|]|e']; simpl; [done..|].
  intros [= <-]. by apply IH.
Qed.

Lemma ws_update_schema_inv (msg : item) :
  SCHEMA_WEBSOCKET_UPDATE_ITEM msg →
  (∃ id, msg !! "id" = Some id) ∧
  (∃ s, msg !! "item_id" = Some (VStr s)) ∧
  is_Some (msg !! "type") ∧
  valid_fields (delete "type" (delete "item_id" (delete "id" msg))) ∧
  delete "type" (delete "item_id" (delete "id" msg)) !! "type" = None.
Proof.
  unfold SCHEMA_WEBSOCKET_UPDATE_ITEM. rewrite !andb_True, !bool_decide_spec.
  intros [[[Hall [id Hid]] Htype] [v Hv]].
  apply Is_true_true in Hall. rewrite forallb_forall in Hall.
  assert (∀ k w, msg !! k = Some w → ws_update_field k w = true) as Hkeys.
  { intros k w Hk. apply (Hall (k, w)).
    by apply list_elem_of_In, elem_of_map_to_list. }
  split_and!; [by eauto| |done| |].
  - specialize (Hkeys "item_id" v Hv). destruct v; try done. eauto.
  - intros k w Hk.
    apply lookup_delete_Some in Hk as [Ht Hk].
    apply lookup_delete_Some in Hk as [Hi Hk].
    apply lookup_delete_Some in Hk as [Hd Hk].
    specialize (Hkeys k w Hk). unfold ws_update_field in Hkeys.
    unfold schema_field.
    rewrite (bool_decide_eq_false_2 (k = "id")) in Hkeys by done.
    rewrite (bool_decide_eq_false_2 (k = "type")) in Hkeys by done.
    rewrite (bool_decide_eq_false_2 (k = "item_id")) in Hkeys by done.
    rewrite (bool_decide_eq_false_2 (k = "type")) by done.
    destruct (decide (k = "complete")) as [->|Hc].
    + simpl in *. by apply Is_true_true.
    + rewrite (bool_decide_eq_false_2 (k = "complete")) by done.
      repeat case_bool_decide; by apply Is_true_true.
  - apply lookup_delete_eq.
Qed.

(** [websocket_handle_update] on a message [SCHEMA_WEBSOCKET_UPDATE_ITEM]
    lets through never raises, whatever the list: what is left of the
    message once ["id"], ["item_id"] and ["type"] are popped passes
    [ITEM_UPDATE_SCHEMA] and has no ["type"] key, so that the command cannot
    change the type of an item; it answers with the item [async_update]
    returns for that id and that rest, the list being updated, or with the
    error [item_not_found], the list staying as it was. *)
Theorem websocket_update_answers (msg : item) (items : list item) :
  SCHEMA_WEBSOCKET_UPDATE_ITEM msg →
  ∃ id s,
    msg !! "id" = Some id ∧ msg !! "item_id" = Some (VStr s) ∧
    let data := delete "type" (delete "item_id" (delete "id" msg)) in
    valid_fields data ∧ data !! "type" = None ∧
    ((∃ itm new_items,
        async_update s data items = (Ok itm, new_items) ∧
        websocket_handle_update msg items =
          (Ok (result_message id (result_item itm)), new_items)) ∨
     (async_update s data items = (Raise KeyError, items) ∧
      websocket_handle_update msg items =
        (Ok (error_message id (code "item_not_found") "Item not found"),
         items))).
Proof.
  intros ([id Hid] & [s Hs] & [t Ht] & Hvalid & Hnotype)%ws_update_schema_inv.
  exists id, s. split; [done|]. split; [done|]. cbv zeta.
  split; [done|]. split; [done|].
  unfold websocket_handle_update, getitem.
  rewrite Hid, lookup_delete_ne, Hs, !lookup_delete_ne, Ht by done.
  rewrite async_update_value_str. unfold async_update.
  rewrite schema_valid by done.
  destruct (next_with_id s items) as [[[i itm]|]|[]] eqn:Hnext;
    [left|right|right|].
  - by eexists _, _.
  - done.
  - done.
  - by apply next_with_id_exn in Hnext.
Qed.

Lemma websocket_update_answers_witness :
  ∃ itm new_items,
    websocket_handle_update
      {[ "id" := VInt 7; "type" := VStr "check_list/items/update";
         "item_id" := VStr "b"; "complete" := VBool true ]}
      [item_A; item_B] =
    (Ok (result_message (VInt 7) (result_item itm)), new_items).
Proof.
  destruct (websocket_update_answers
              {[ "id" := VInt 7; "type" := VStr "check_list/items/update";
                 "item_id" := VStr "b"; "complete" := VBool true ]}
              [item_A; item_B])
    as (id & s & Hid & Hs & _ & _ & [(itm & new_items & _ & Hrun)|[_ Hrun]]).
  - by vm_compute.
  - injection Hid as <-. by exists itm, new_items.
  - exfalso. revert Hrun. by vm_compute.
Defined.

(** [websocket_handle_reorder] on a list of items with distinct ids, for a
    message with an ["id"]: it never raises; it answers [ERR_NOT_FOUND]
    exactly when an id is given twice or is the id of no item,
    [ERR_INVALID_FORMAT] exactly when the ids given can be placed and an
    item left out has [complete] equal to [False], the list staying as it
    was in both cases; otherwise it answers with a result, the list being a
    permutation of what it was. *)
Theorem websocket_reorder_answers (msg : item) (id : value)
    (item_ids : list string) (items : list item) :
  msg !! "id" = Some id →
  Forall is_item items → distinct_ids items →
  (¬ placeable item_ids items ∧
   websocket_handle_reorder msg item_ids items =
     (Ok (error_message id ERR_NOT_FOUND "One or more item id(s) not found."),
      items)) ∨
  (placeable item_ids items ∧
   (∃ itm, itm ∈ items ∧ (str_id itm ∉ item_ids) ∧
           itm !! "complete" = Some (VBool false)) ∧
   websocket_handle_reorder msg item_ids items =
     (Ok (error_message id ERR_INVALID_FORMAT
            "The item ids array doesn't contain all the unchecked check list items."),
      items)) ∨
  (placeable item_ids items ∧
   (∀ itm, itm ∈ items → str_id itm ∉ item_ids →
           itm !! "complete" = Some (VBool true)) ∧
   ∃ new_items,
     websocket_handle_reorder msg item_ids items =
       (Ok (result_message id result_None), new_items) ∧
     new_items ≡ₚ items ∧
     take (length item_ids) (ids new_items) = item_ids).
Proof.
  intros Hid Hitems Hdist.
  unfold websocket_handle_reorder, getitem, async_reorder. rewrite Hid.
  destruct (reordered_cases item_ids items Hitems Hdist)
    as [[Hnot Hr]|[(Hok & Hsome & Hr)|(Hok & Hall & named & Hr & Hids & Hn)]].
  - left. by rewrite Hr.
  - right. left. by rewrite Hr.
  - right. right. split_and!; [done..|]. rewrite Hr. eexists. split_and!.
    + done.
    + by apply (reordered_Permutation item_ids).
    + unfold ids in *. rewrite fmap_app.
      assert (length item_ids = length (str_id <$> named)) as ->
        by (by rewrite Hids).
      by rewrite take_app_length.
Qed.

Lemma websocket_reorder_answers_witness :
  websocket_handle_reorder {[ "id" := VInt 7 ]} ["b"] [item_A; item_B; item_C] =
    (Ok (error_message (VInt 7) ERR_INVALID_FORMAT
           "The item ids array doesn't contain all the unchecked check list items."),
     [item_A; item_B; item_C]).
Proof.
  destruct (websocket_reorder_answers {[ "id" := VInt 7 ]} (VInt 7) ["b"]
              [item_A; item_B; item_C])
    as [[_ Hrun]|[(_ & _ & Hrun)|(_ & _ & l & Hrun & _)]].
  - done.
  - repeat constructor.
  - unfold distinct_ids. by_compute.
  - done.
  - done.
  - exfalso. revert Hrun. by vm_compute.
Defined.
